(** * Visby Soltipp: the scroll-triggered ticker of [WISE/script.js]

    A shallow embedding of the ticker script and the properties its
    description states about it.  JavaScript numbers are IEEE 754 binary64
    values; they are modelled with the Standard Library's executable
    specification of binary floating point ([SpecFloat]) at precision 53 and
    maximal exponent 1024, so every definition below can be evaluated. *)

From Stdlib Require Import ZArith Lia List Bool String Ascii DecimalString DecimalPos.
From Stdlib Require Import SpecFloat.
Import ListNotations.
Local Open Scope Z_scope.

(** ** JavaScript numbers *)

Module Num.

Definition number := spec_float.

Definition prec : Z := 53.
Definition emax : Z := 1024.

Definition NaN : number := S754_nan.
Definition zero : number := S754_zero false.
Definition infinity : number := S754_infinity false.

(** The number value of an integer. *)
Definition of_Z (z : Z) : number := binary_normalize prec emax z 0 false.

(** The literal [100]. *)
Definition hundred : number := Eval vm_compute in of_Z 100.

(** The least positive normal number, [2^-1022]. *)
Definition min_normal : number := S754_finite false 4503599627370496 (-1074).

(** [x + y] and [x / y]. *)
Definition add (x y : number) : number := SFadd prec emax x y.
Definition div (x y : number) : number := SFdiv prec emax x y.

(** [x < y]: the abstract relational comparison, [undefined] read as
    [false]. *)
Definition lt (x y : number) : bool :=
  match SFcompare x y with
  | Some Lt => true
  | _ => false
  end.

(** [x >= y]: the comparison [x < y] is made, and the answer is [false] when
    it is [true] or [undefined]. *)
Definition ge (x y : number) : bool :=
  match SFcompare x y with
  | Some Lt | None => false
  | Some _ => true
  end.

Definition is_nan (x : number) : bool :=
  match x with S754_nan => true | _ => false end.

(** A number of the format: the mantissa has at most 53 bits and the
    exponent is the one the format gives it. *)
Definition valid (x : number) : Prop := valid_binary prec emax x = true.

(** The exponent of the format for a value of magnitude below [2^e]. *)
Definition fexp64 (e : Z) : Z := Z.max (e - 53) (-1074).

(** The magnitude of a finite number in units of [2^-1074], the least
    positive number; 0 for the others. *)
Definition ulps (x : number) : Z :=
  match x with
  | S754_finite _ m e => Zpos m * 2 ^ (e + 1074)
  | _ => 0
  end.

(** What a rounding to sign [sx] returns when the exact magnitude lies in
    [[L, L + u)], in those units. *)
Inductive rounded (sx : bool) (L u : Z) (r : number) : Prop :=
  | rounded_overflow :
      r = S754_infinity sx -> 2 ^ 2098 <= L + u -> rounded sx L u r
  | rounded_zero :
      r = S754_zero sx -> L = 0 -> rounded sx L u r
  | rounded_finite (m : positive) (e : Z) :
      r = S754_finite sx m e -> valid r -> L <= ulps r <= L + u ->
      rounded sx L u r.

(** A zero or a positive finite number of the format. *)
Definition good (x : number) : Prop :=
  match x with
  | S754_zero _ => True
  | S754_finite false _ _ => valid x
  | _ => False
  end.

End Num.

(** ** The built-in functions the script calls

    [Number.prototype.toFixed], [parseFloat] and [parseInt] follow the
    ECMAScript algorithms.  A string is held as its UTF-8 bytes. *)

Module Builtin.
Import Num.
Local Open Scope string_scope.
Local Open Scope Z_scope.

(** The outcome of a call that may throw a [RangeError]. *)
Inductive completion (A : Type) : Type :=
  | Return (a : A)
  | ThrowRangeError.
Arguments Return {A} a.
Arguments ThrowRangeError {A}.

Inductive integer_or_infinity : Type :=
  | Finite (z : Z)
  | PlusInfinity
  | MinusInfinity.

(** [ToIntegerOrInfinity]: NaN and the zeros give 0, a finite number is
    truncated toward zero. *)
Definition ToIntegerOrInfinity (x : number) : integer_or_infinity :=
  match x with
  | S754_nan => Finite 0
  | S754_zero _ => Finite 0
  | S754_infinity false => PlusInfinity
  | S754_infinity true => MinusInfinity
  | S754_finite s m e => Finite (cond_Zopp s (Z.shiftl (Zpos m) e))
  end.

Definition decimal (n : Z) : string :=
  NilEmpty.string_of_uint (N.to_uint (Z.to_N n)).

(** The integer nearest to [m * 2^e * 10^f], the larger one on a tie. *)
Definition scaled_nearest (m : positive) (e f : Z) : Z :=
  let num := Zpos m * 10 ^ f in
  if 0 <=? e then num * 2 ^ e
  else (2 * num + 2 ^ (- e)) / 2 ^ (1 - e).

(** Is [m * 2^e >= 10^21] ? *)
Definition at_least_1e21 (m : positive) (e : Z) : bool :=
  if 0 <=? e then 10 ^ 21 <=? Zpos m * 2 ^ e
  else 10 ^ 21 * 2 ^ (- e) <=? Zpos m.

(** [Number::toString] where [toFixed] uses it on a finite value: [x] is at
    least [10^21], hence an integer [X], and is written as the shortest digit
    string [s] with [s * 10^(n-k)] still read back as [x], the closest to [X]
    among those, then in exponent form. *)
Definition reads_back (x : number) (s p : Z) : bool :=
  match SFcompare (of_Z (s * 10 ^ p)) x with
  | Some Eq => true
  | _ => false
  end.

(** The candidates with [k] digits: the quotient of [X] by [10^(D-k)] and
    its successor, where [D] is the number of digits of [X]. *)
Definition candidates (x : number) (X D k : Z) : list (Z * Z) :=
  let p := D - k in
  let lo := X / 10 ^ p in
  let hi := lo + 1 in
  ((if reads_back x lo p then [(lo, p)] else []) ++
   (if reads_back x hi p
    then [if hi =? 10 ^ k then (10 ^ (k - 1), p + 1) else (hi, p)]
    else []))%list.

Definition distance (X : Z) (c : Z * Z) : Z := Z.abs (fst c * 10 ^ snd c - X).

Definition closest (X : Z) (cs : list (Z * Z)) : option (Z * Z) :=
  match cs with
  | [] => None
  | [c] => Some c
  | c1 :: c2 :: _ =>
      match distance X c1 ?= distance X c2 with
      | Lt => Some c1
      | Gt => Some c2
      | Eq => Some (if Z.even (fst c1) then c1 else c2)
      end
  end.

Fixpoint shortest (x : number) (X : Z) (fuel : nat) (D k : Z) : Z * Z :=
  match fuel with
  | O => (X, 0)
  | S fuel' =>
      match closest X (candidates x X D k) with
      | Some c => c
      | None => shortest x X fuel' D (k + 1)
      end
  end.

Definition toString_large (m : positive) (e : Z) : string :=
  let x := S754_finite false m e in
  let X := Z.shiftl (Zpos m) e in
  let D := Z.of_nat (String.length (decimal X)) in
  let '(s, p) := shortest x X (Z.to_nat D) D 1 in
  let digits := decimal s in
  let k := Z.of_nat (String.length digits) in
  let n := p + k in
  match digits with
  | String d EmptyString => String d ("e+" ++ decimal (n - 1))
  | String d rest => String d ("." ++ rest ++ "e+" ++ decimal (n - 1))
  | EmptyString => EmptyString
  end.

Fixpoint zeros (n : nat) : string :=
  match n with
  | O => EmptyString
  | S n' => String "0" (zeros n')
  end.

(** The last steps of [toFixed] for [0 <= x < 10^21]: the digits of [n],
    padded on the left to [f + 1] characters, with the point before the last
    [f] of them. *)
Definition fixed_digits (n : Z) (f : nat) : string :=
  let m := decimal n in
  match f with
  | O => m
  | _ =>
      let k := String.length m in
      let m := if Nat.leb k f then zeros (f + 1 - k) ++ m else m in
      let k := String.length m in
      substring 0 (k - f) m ++ "." ++ substring (k - f) f m
  end.

(** [x.toFixed(fractionDigits)]. *)
Definition toFixed (x fractionDigits : number) : completion string :=
  match ToIntegerOrInfinity fractionDigits with
  | Finite f =>
      if (f <? 0) || (100 <? f) then ThrowRangeError
      else
        match x with
        | S754_nan => Return "NaN"
        | S754_infinity false => Return "Infinity"
        | S754_infinity true => Return "-Infinity"
        | S754_zero _ => Return (fixed_digits 0 (Z.to_nat f))
        | S754_finite s m e =>
            let sign := if s then "-" else EmptyString in
            if at_least_1e21 m e then Return (sign ++ toString_large m e)
            else Return (sign ++ fixed_digits (scaled_nearest m e f) (Z.to_nat f))
        end
  | _ => ThrowRangeError
  end.

(** *** Reading numbers *)

(** The bytes of a string. *)
Definition bytes (s : string) : list N :=
  map N_of_ascii (list_ascii_of_string s).

(** [TrimString(start)]: white space and line terminators are dropped from
    the front, the ones outside ASCII in their UTF-8 form. *)
Fixpoint trim_start (l : list N) : list N :=
  match l with
  | (9 | 10 | 11 | 12 | 13 | 32)%N :: r => trim_start r
  | 194%N :: 160%N :: r => trim_start r
  | 225%N :: 154%N :: 128%N :: r => trim_start r
  | 226%N :: 128%N :: c :: r =>
      if ((128 <=? c) && (c <=? 138) || (c =? 168) || (c =? 169) || (c =? 175))%N
      then trim_start r else l
  | 226%N :: 129%N :: 159%N :: r => trim_start r
  | 227%N :: 128%N :: 128%N :: r => trim_start r
  | 239%N :: 187%N :: 191%N :: r => trim_start r
  | _ => l
  end.

Definition is_digit (c : N) : bool := ((48 <=? c) && (c <=? 57))%N.

(** [DecimalDigits]: the value read so far, the number of digits read and
    what follows them. *)
Fixpoint read_digits (l : list N) (acc : Z) (n : nat) : Z * nat * list N :=
  match l with
  | c :: r =>
      if is_digit c then read_digits r (10 * acc + (Z.of_N c - 48)) (S n)
      else (acc, n, l)
  | [] => (acc, n, l)
  end.

(** What follows a given first byte, if the text starts with it. *)
Definition after (c : N) (l : list N) : option (list N) :=
  match l with
  | c' :: r => if (c' =? c)%N then Some r else None
  | [] => None
  end.

Fixpoint starts_with (p l : list N) : bool :=
  match p, l with
  | [], _ => true
  | a :: p', b :: l' => (a =? b)%N && starts_with p' l'
  | _ :: _, [] => false
  end.

(** [ExponentPart], taken only when it is complete: [e] or [E], an optional
    sign and at least one digit. *)
Definition read_exponent (l : list N) : Z :=
  match l with
  | c :: r =>
      if ((c =? 101) || (c =? 69))%N then
        let '(sign, r') :=
          match after 43 r, after 45 r with
          | Some r', _ => (1, r')
          | None, Some r' => (-1, r')
          | None, None => (1, r)
          end in
        let '(v, n, _) := read_digits r' 0 0 in
        match n with
        | O => 0
        | _ => sign * v
        end
      else 0
  | [] => 0
  end.

(** The number value of [d * 10^e], for [d >= 0]: the nearest binary64
    value, an integer rounded directly and a fraction as the quotient of its
    numerator by the power of ten. *)
Definition of_decimal (d e : Z) : number :=
  match d with
  | Zpos p =>
      if 0 <=? e then of_Z (d * 10 ^ e)
      else div (S754_finite false p 0) (S754_finite false (Z.to_pos (10 ^ (- e))) 0)
  | _ => zero
  end.

(** [StrUnsignedDecimalLiteral]: the longest prefix that is one, as its
    number value; [None] when no prefix is one. *)
Definition read_unsigned (l : list N) : option number :=
  if starts_with (bytes "Infinity") l then Some infinity
  else
    let '(ip, nip, r1) := read_digits l 0 0 in
    match after 46 r1 with
    | Some r2 =>
        let '(fp, nfp, r3) := read_digits r2 0 0 in
        match nip, nfp with
        | O, O => None
        | _, _ =>
            Some (of_decimal (ip * 10 ^ Z.of_nat nfp + fp)
                             (read_exponent r3 - Z.of_nat nfp))
        end
    | None =>
        match nip with
        | O => None
        | _ => Some (of_decimal ip (read_exponent r1))
        end
    end.

(** [StrDecimalLiteral]: an optional sign and an unsigned literal. *)
Definition read_literal (l : list N) : option number :=
  match after 45 l, after 43 l with
  | Some r, _ =>
      match read_unsigned r with
      | Some v => Some (SFopp v)
      | None => None
      end
  | None, Some r => read_unsigned r
  | None, None => read_unsigned l
  end.

(** [parseFloat(string)] on the bytes of its argument: [NaN] when no prefix
    of the trimmed string is a [StrDecimalLiteral]. *)
Definition parseFloat_bytes (l : list N) : number :=
  match read_literal (trim_start l) with
  | Some v => v
  | None => NaN
  end.

(** A value read from [dataset]: [undefined] when the attribute is absent.
    [ToString(undefined)] is ["undefined"]. *)
Definition ToString (v : option string) : string :=
  match v with
  | Some s => s
  | None => "undefined"
  end.

Definition parseFloat (v : option string) : number :=
  parseFloat_bytes (bytes (ToString v)).




(** The value of a digit in radix 16, [None] for another character. *)
Definition hex_value (c : N) : option Z :=
  if is_digit c then Some (Z.of_N c - 48)
  else if ((97 <=? c) && (c <=? 102))%N then Some (Z.of_N c - 87)
  else if ((65 <=? c) && (c <=? 70))%N then Some (Z.of_N c - 55)
  else None.

Fixpoint read_hex (l : list N) (acc : Z) (n : nat) : Z * nat :=
  match l with
  | c :: r =>
      match hex_value c with
      | Some d => read_hex r (16 * acc + d) (S n)
      | None => (acc, n)
      end
  | [] => (acc, n)
  end.

(** [parseInt(string)] with no radix: radix 16 after a [0x] prefix, radix
    10 otherwise. *)
Definition parseInt_bytes (l : list N) : number :=
  let str := trim_start l in
  let '(negative, str) :=
    match after 45 str, after 43 str with
    | Some r, _ => (true, r)
    | None, Some r => (false, r)
    | None, None => (false, str)
    end in
  let '(mathInt, n) :=
    if starts_with (bytes "0x") str || starts_with (bytes "0X") str
    then read_hex (skipn 2 str) 0 0
    else let '(v, n, _) := read_digits str 0 0 in (v, n) in
  match n with
  | O => NaN
  | _ =>
      match mathInt with
      | 0 => S754_zero negative
      | _ => if negative then SFopp (of_Z mathInt) else of_Z mathInt
      end
  end.

(** The argument of [parseInt] in the script is
    [el.dataset.decimals || 0]: the attribute when it is present and not
    empty, the number [0] otherwise, and [ToString(0)] is ["0"]. *)
Definition or_zero (v : option string) : string :=
  match v with
  | Some (String c r) => String c r
  | _ => "0"
  end.

Definition parseInt (s : string) : number := parseInt_bytes (bytes s).

(** *** The shape of a text *)





End Builtin.

(** ** The script

    [document.getElementById('ticker')] and the [querySelectorAll] on its
    result are read from the document as the list of counter elements inside
    the container, or nothing when the container is absent. *)

Module Ticker.
Import Num Builtin.

(** A [.ticker-number] element: its two [data-] attributes and its text. *)
Record element : Type := {
  data_target : option string;
  data_decimals : option string;
  textContent : string
}.

Definition document : Type := option (list element).

(** One [setInterval] of the script with the variables its callback closes
    over.  [el] is the position of the element in [counters]; [cleared]
    holds once [clearInterval(interval)] has run. *)
Record interval : Type := {
  el : nat;
  target : number;
  decimals : number;
  step : number;
  count : number;
  delay : Z;
  cleared : bool
}.

(** The page as the script sees and changes it. *)
Record page : Type := {
  listening : bool;            (* [animateTicker] is registered for 'scroll' *)
  counters : list element;
  started : bool;
  intervals : list interval
}.

(** What the geometry queries answer at the time of a check. *)
Record geometry : Type := {
  top : number;                (* [ticker.getBoundingClientRect().top] *)
  innerHeight : number         (* [window.innerHeight] *)
}.

(** The page before the script has run. *)
Definition blank : page :=
  {| listening := false; counters := []; started := false; intervals := [] |}.

(** The body of the [forEach] callback, up to the [setInterval] call. *)
Definition launch (i : nat) (e : element) : interval :=
  let target := parseFloat (data_target e) in
  let decimals := parseInt (or_zero (data_decimals e)) in
  {| el := i;
     target := target;
     decimals := decimals;
     step := div target hundred;
     count := zero;
     delay := 20;
     cleared := false |}.

Fixpoint forEach (i : nat) (els : list element) : list interval :=
  match els with
  | [] => []
  | e :: rest => launch i e :: forEach (S i) rest
  end.

Definition animateTicker (g : geometry) (p : page) : page :=
  if started p then p
  else
    let pos := top g in
    if lt pos (innerHeight g) then
      {| listening := listening p;
         counters := counters p;
         started := true;
         intervals := intervals p ++ forEach 0 (counters p) |}
    else p.

(** The interval callback: the closure after the call and the outcome of
    [count.toFixed(decimals)], whose string is assigned to [el.textContent]. *)
Definition callback (t : interval) : interval * completion string :=
  let count1 := add (count t) (step t) in
  let reached := ge count1 (target t) in
  let count2 := if reached then target t else count1 in
  ({| el := el t;
      target := target t;
      decimals := decimals t;
      step := step t;
      count := count2;
      delay := delay t;
      cleared := if reached then true else cleared t |},
   toFixed count2 (decimals t)).

(** The declarations of the handler of [DOMContentLoaded] and the
    registration of the scroll listener. *)
Definition setup (els : list element) (p : page) : page :=
  {| listening := true;
     counters := els;
     started := false;
     intervals := intervals p |}.

(** The handler of [DOMContentLoaded]: it returns at once when the container
    is absent, and ends with a first call of [animateTicker]. *)
Definition DOMContentLoaded (doc : document) (g : geometry) (p : page)
  : page * completion unit :=
  match doc with
  | None => (p, Return tt)
  | Some els => (animateTicker g (setup els p), Return tt)
  end.

(** *** The event loop *)

Definition set_text (s : string) (e : element) : element :=
  {| data_target := data_target e;
     data_decimals := data_decimals e;
     textContent := s |}.

Fixpoint update {A : Type} (i : nat) (f : A -> A) (l : list A) : list A :=
  match l, i with
  | [], _ => []
  | x :: r, O => f x :: r
  | x :: r, S j => x :: update j f r
  end.

Inductive event : Type :=
  | Scroll (g : geometry)      (* the window is scrolled *)
  | Timer (i : nat).           (* the period of the [i]-th interval elapses *)

(** The [i]-th interval fires: nothing happens when it is cleared.  A
    [RangeError] of [toFixed] ends the callback before the assignment. *)
Definition fire (i : nat) (p : page) : page * completion unit :=
  match nth_error (intervals p) i with
  | Some t =>
      if cleared t then (p, Return tt)
      else
        match snd (callback t) with
        | Return s =>
            ({| listening := listening p;
                counters := update (el t) (set_text s) (counters p);
                started := started p;
                intervals := update i (fun _ => fst (callback t)) (intervals p) |},
             Return tt)
        | ThrowRangeError =>
            ({| listening := listening p;
                counters := counters p;
                started := started p;
                intervals := update i (fun _ => fst (callback t)) (intervals p) |},
             ThrowRangeError)
        end
  | None => (p, Return tt)
  end.

Definition dispatch (ev : event) (p : page) : page * completion unit :=
  match ev with
  | Scroll g => if listening p then (animateTicker g p, Return tt) else (p, Return tt)
  | Timer i => fire i p
  end.

Fixpoint run (evs : list event) (p : page) : page :=
  match evs with
  | [] => p
  | ev :: rest => run rest (fst (dispatch ev p))
  end.

(** The pages reached after each event of a run. *)
Fixpoint trace (evs : list event) (p : page) : list page :=
  match evs with
  | [] => []
  | ev :: rest => fst (dispatch ev p) :: trace rest (fst (dispatch ev p))
  end.

(** How many steps of the pages [p :: tr] start the animation set:
    [started] goes from [false] to [true]. *)
Fixpoint starts (p : page) (tr : list page) : nat :=
  match tr with
  | [] => O
  | q :: rest => ((if negb (started p) && started q then 1 else 0) + starts q rest)%nat
  end.

(** Along a run, no interval exists before the trigger and one per counter
    exists after it. *)
Definition one_launch (n : nat) (p : page) : Prop :=
  List.length (counters p) = n /\
  List.length (intervals p) = if started p then n else O.

(** *** One counter on its own *)

(** The closure after [n] periods of its timer. *)
Fixpoint ticks (n : nat) (t : interval) : interval :=
  match n with
  | O => t
  | S k => if cleared t then t else ticks k (fst (callback t))
  end.

(** How many times the callback has run within [n] periods. *)
Fixpoint calls (n : nat) (t : interval) : nat :=
  match n with
  | O => O
  | S k => if cleared t then O else S (calls k (fst (callback t)))
  end.

(** What the callback runs of [n] periods assigned, oldest first. *)
Fixpoint writes (n : nat) (t : interval) : list (completion string) :=
  match n with
  | O => []
  | S k =>
      if cleared t then []
      else snd (callback t) :: writes k (fst (callback t))
  end.

(** How many periods of the [i]-th interval elapse in a run of events. *)
Fixpoint periods (i : nat) (evs : list event) : nat :=
  match evs with
  | [] => O
  | Timer j :: rest => if Nat.eqb i j then S (periods i rest) else periods i rest
  | Scroll _ :: rest => periods i rest
  end.

(** After [k] runs that left the timer going, the count is below the target
    [T] and within [k] losses [E] of [k] steps [s]. *)
Definition below (T s : number) (E k : Z) (c : number) : Prop :=
  (k = 0 /\ c = zero) \/
  (0 < k /\ exists m e,
     c = S754_finite false m e /\ valid c /\
     ulps c < ulps T /\ k * ulps s <= ulps c + k * E).

(** A closure as [launch] makes it, for a target [T]. *)
Definition launched (T : number) (t : interval) : Prop :=
  target t = T /\ step t = div T hundred /\ count t = zero /\ cleared t = false.

(** What holds of a closure of a counter whose target [T] is not negative:
    the count is at most the target, and is a zero or a positive finite
    number while the timer goes. *)
Definition at_most_target (T : number) (t : interval) : Prop :=
  target t = T /\ step t = div T hundred /\
  ge T (count t) = true /\
  (cleared t = true \/ good (count t)).

(** *** The text on the page *)

(** The text of an element after the assignments of some runs of its
    callback, oldest first: a run that threw assigned nothing. *)
Fixpoint shown (old : string) (ws : list (completion string)) : string :=
  match ws with
  | [] => old
  | Return s :: rest => shown s rest
  | ThrowRangeError :: rest => shown old rest
  end.

(** Every interval of the page writes to the element at its own position,
    as the intervals [forEach] creates do. *)
Definition own_elements (p : page) : Prop :=
  forall i t, nth_error (intervals p) i = Some t -> el t = i.

(** An event that cannot trigger the animation: a period of a timer, or a
    scroll that leaves the top of the container at or below the bottom of the
    viewport. *)
Definition quiet (ev : event) : Prop :=
  match ev with
  | Scroll g => lt (top g) (innerHeight g) = false
  | Timer _ => True
  end.

(** The argument [fractionDigits] is one [toFixed] accepts: an integer from
    0 to 100 once truncated. *)
Definition accepted (d : number) : bool :=
  match ToIntegerOrInfinity d with
  | Finite f => (0 <=? f) && (f <=? 100)
  | _ => false
  end.

(** Two closures that differ at most in what they write and where. *)
Definition same_timing (t t' : interval) : Prop :=
  target t = target t' /\ step t = step t' /\
  count t = count t' /\ cleared t = cleared t'.

(** After [k] runs the count is within [k] steps [s] and [k] losses [E]. *)
Definition within (s : number) (E k : Z) (c : number) : Prop :=
  (k = 0 /\ c = zero) \/
  (0 < k /\ exists m e,
     c = S754_finite false m e /\ valid c /\
     ulps c <= k * ulps s + k * E).

End Ticker.

Import Num Builtin Ticker.

(** An element with the given attributes and no text yet. *)
Definition counter (target decimals : option string) : element :=
  {| data_target := target; data_decimals := decimals; textContent := EmptyString |}.

(** The container 300 pixels below the top of a viewport 768 pixels high,
    and the container just below that viewport. *)
Definition in_view : geometry :=
  {| top := of_Z 300; innerHeight := of_Z 768 |}.

Definition out_of_view : geometry :=
  {| top := of_Z 768; innerHeight := of_Z 768 |}.






(** A container scrolled past: its top is 5000 pixels above the top of a
    viewport 768 pixels high. *)
Definition scrolled_past : geometry := {| top := of_Z (-5000); innerHeight := of_Z 768 |}.

(** * Properties *)

(** ** Binary64 arithmetic

    The digits of a mantissa, the shifts of the rounding, and what addition,
    division by 100 and comparison do to magnitudes. *)

(** A mantissa of [d] digits lies in [[2^(d-1), 2^d)]. *)
Lemma digits2_pos_bounds (m : positive) :
  2 ^ (Zpos (digits2_pos m) - 1) <= Zpos m < 2 ^ Zpos (digits2_pos m).
Proof.
  induction m as [p IH|p IH|]; simpl digits2_pos.
  - rewrite Pos2Z.inj_succ. replace (Z.succ (Zpos (digits2_pos p)) - 1) with (Z.succ (Zpos (digits2_pos p) - 1)) by lia.
    rewrite !Z.pow_succ_r by lia. lia.
  - rewrite Pos2Z.inj_succ. replace (Z.succ (Zpos (digits2_pos p)) - 1) with (Z.succ (Zpos (digits2_pos p) - 1)) by lia.
    rewrite !Z.pow_succ_r by lia. lia.
  - simpl. lia.
Qed.

(** The right shifts of the rounding halve the mantissa, rounding down. *)
Lemma shr_1_m (mrs : shr_record) : 0 <= shr_m mrs -> shr_m (shr_1 mrs) = shr_m mrs / 2.
Proof.
  destruct mrs as [m r s]. simpl. intros Hm.
  destruct m as [|[p|p|]|p]; cbn [shr_m shr_1]; try reflexivity; try lia.
  - apply Z.div_unique with 1; lia.
  - apply Z.div_unique with 0; lia.
Qed.

Lemma pow2_xO (p : positive) : 2 ^ Zpos p~0 = 2 ^ Zpos p * 2 ^ Zpos p.
Proof. rewrite <- Z.pow_add_r by lia. f_equal. lia. Qed.

Lemma pow2_xI (p : positive) : 2 ^ Zpos p~1 = 2 * (2 ^ Zpos p * 2 ^ Zpos p).
Proof.
  rewrite <- Z.pow_add_r by lia.
  rewrite <- (Z.pow_succ_r 2) by lia. f_equal. lia.
Qed.

Lemma pow2_pos (n : Z) : 0 <= n -> 0 < 2 ^ n.
Proof. intros. apply Z.pow_pos_nonneg; lia. Qed.

Lemma shr_iter_m (p : positive) :
  forall mrs, 0 <= shr_m mrs ->
  shr_m (iter_pos shr_1 p mrs) = shr_m mrs / 2 ^ Zpos p.
Proof.
  induction p as [p IH|p IH|]; intros mrs Hm; simpl iter_pos.
  - assert (H1 : 0 <= shr_m (shr_1 mrs)).
    { rewrite shr_1_m by assumption. apply Z.div_pos; lia. }
    assert (H2 : 0 <= shr_m (iter_pos shr_1 p (shr_1 mrs))).
    { rewrite IH by assumption. apply Z.div_pos; [lia|]. apply pow2_pos; lia. }
    rewrite IH, IH, shr_1_m by assumption.
    pose proof (pow2_pos (Zpos p)).
    rewrite !Z.div_div by lia.
    now rewrite pow2_xI.
  - assert (H2 : 0 <= shr_m (iter_pos shr_1 p mrs)).
    { rewrite IH by assumption. apply Z.div_pos; [lia|]. apply pow2_pos; lia. }
    rewrite IH, IH by assumption.
    pose proof (pow2_pos (Zpos p)).
    rewrite !Z.div_div by lia.
    now rewrite pow2_xO.
  - now rewrite shr_1_m.
Qed.

Lemma fexp_eq (e : Z) : fexp prec emax e = fexp64 e.
Proof. reflexivity. Qed.

(** The shift to the exponent of the format divides the mantissa by the
    power of two between the two exponents. *)
Lemma shr_fexp_spec (m e : Z) (l : location) :
  0 <= m -> e <= fexp64 (Zdigits2 m + e) ->
  snd (shr_fexp prec emax m e l) = fexp64 (Zdigits2 m + e) /\
  shr_m (fst (shr_fexp prec emax m e l)) = m / 2 ^ (fexp64 (Zdigits2 m + e) - e).
Proof.
  intros Hm He. unfold shr_fexp. rewrite fexp_eq.
  assert (Hrec : shr_m (shr_record_of_loc m l) = m) by (destruct l as [|[]]; reflexivity).
  destruct (fexp64 (Zdigits2 m + e) - e) as [|p|p] eqn:Hn; try lia; unfold shr.
  - simpl. rewrite Hrec, Z.div_1_r. lia.
  - cbn [fst snd]. rewrite shr_iter_m by lia. rewrite Hrec. lia.
Qed.

Lemma round_nearest_even_bounds (m : Z) (l : location) :
  m <= round_nearest_even m l <= m + 1.
Proof. destruct l as [|[]]; simpl; try lia. destruct (Z.even m); lia. Qed.

Lemma Zdigits2_bounds (m : Z) :
  0 < m -> 0 < Zdigits2 m /\ 2 ^ (Zdigits2 m - 1) <= m < 2 ^ Zdigits2 m.
Proof.
  intros Hm. destruct m as [|p|p]; try lia. simpl Zdigits2.
  split; [lia|apply digits2_pos_bounds].
Qed.

Lemma Zdigits2_unique (m d : Z) :
  2 ^ (d - 1) <= m < 2 ^ d -> 0 < m -> Zdigits2 m = d.
Proof.
  intros [H1 H2] Hm.
  destruct (Zdigits2_bounds m Hm) as [Hd [H3 H4]].
  assert (0 < d).
  { destruct (Z_lt_le_dec 0 d); [assumption|].
    destruct (Z.eq_dec d 0) as [->|]; [simpl in H2; lia|].
    rewrite Z.pow_neg_r in H2 by lia. lia. }
  assert (Zdigits2 m - 1 < d).
  { apply (Z.pow_lt_mono_r_iff 2); lia. }
  assert (d - 1 < Zdigits2 m).
  { apply (Z.pow_lt_mono_r_iff 2); lia. }
  lia.
Qed.

Lemma Zdigits2_le (m m' : Z) : 0 < m -> m <= m' -> Zdigits2 m <= Zdigits2 m'.
Proof.
  intros Hm Hle.
  destruct (Zdigits2_bounds m Hm) as [Hd [H1 H2]].
  destruct (Zdigits2_bounds m' ltac:(lia)) as [Hd' [H3 H4]].
  assert (Zdigits2 m - 1 < Zdigits2 m'); [|lia].
  apply (Z.pow_lt_mono_r_iff 2); lia.
Qed.

(** Digits of a quotient by a power of two. *)
Lemma Zdigits2_div_pow2 (m n : Z) :
  0 <= n -> 0 < m / 2 ^ n -> Zdigits2 (m / 2 ^ n) = Zdigits2 m - n.
Proof.
  intros Hn Hq.
  pose proof (pow2_pos n Hn) as Hp.
  assert (Hm : 0 < m).
  { destruct (Z_lt_le_dec 0 m); [assumption|].
    assert (m / 2 ^ n <= 0) by (apply Z.div_le_upper_bound; lia). lia. }
  destruct (Zdigits2_bounds m Hm) as [Hd [H1 H2]].
  assert (Hge : 2 ^ n <= m).
  { destruct (Z_le_gt_dec (2 ^ n) m); [assumption|].
    rewrite Z.div_small in Hq by lia. lia. }
  assert (Hnd : n < Zdigits2 m) by (apply (Z.pow_lt_mono_r_iff 2); lia).
  apply Zdigits2_unique; [|assumption].
  split.
  - apply Z.div_le_lower_bound; [assumption|].
    rewrite <- Z.pow_add_r by lia.
    replace (n + (Zdigits2 m - n - 1)) with (Zdigits2 m - 1) by lia. assumption.
  - apply Z.div_lt_upper_bound; [assumption|].
    rewrite <- Z.pow_add_r by lia.
    replace (n + (Zdigits2 m - n)) with (Zdigits2 m) by lia. assumption.
Qed.

(** Digits of a successor: one more exactly at a power of two. *)
Lemma Zdigits2_succ (m : Z) :
  0 < m ->
  Zdigits2 (m + 1) = Zdigits2 m \/
  (Zdigits2 (m + 1) = Zdigits2 m + 1 /\ m + 1 = 2 ^ Zdigits2 m).
Proof.
  intros Hm.
  destruct (Zdigits2_bounds m Hm) as [Hd [H1 H2]].
  destruct (Z.eq_dec (m + 1) (2 ^ Zdigits2 m)) as [E|NE].
  - right. split; [|assumption].
    apply Zdigits2_unique; [|lia].
    replace (Zdigits2 m + 1 - 1) with (Zdigits2 m) by lia.
    rewrite Z.pow_add_r by lia. lia.
  - left. apply Zdigits2_unique; lia.
Qed.

(** The rounding of [mx * 2^ex]: the mantissa is cut at the exponent [e1] of
    the format, rounded to itself or to its successor, and renormalised
    when that successor needs one more digit.  The result is a zero, a
    number of the format, or an infinity when its exponent is above 971. *)
Lemma binary_round_aux_spec (sx : bool) (mx ex : Z) (lx : location) :
  0 <= mx -> ex <= fexp64 (Zdigits2 mx + ex) ->
  exists m2 e2,
    0 <= m2 /\
    fexp64 (Zdigits2 mx + ex) <= e2 /\
    mx / 2 ^ (fexp64 (Zdigits2 mx + ex) - ex)
      <= m2 * 2 ^ (e2 - fexp64 (Zdigits2 mx + ex))
      <= mx / 2 ^ (fexp64 (Zdigits2 mx + ex) - ex) + 1 /\
    (0 < m2 -> fexp64 (Zdigits2 m2 + e2) = e2) /\
    binary_round_aux prec emax sx mx ex lx =
      match m2 with
      | Z0 => S754_zero sx
      | Zpos m => if e2 <=? 971 then S754_finite sx m e2 else S754_infinity sx
      | Zneg _ => S754_nan
      end.
Proof.
  intros Hmx Hex.
  set (e1 := fexp64 (Zdigits2 mx + ex)) in *.
  set (m1 := mx / 2 ^ (e1 - ex)).
  destruct (shr_fexp_spec mx ex lx Hmx Hex) as [He1 Hm1].
  fold e1 in He1, Hm1. fold m1 in Hm1.
  assert (Hm1pos : 0 <= m1) by (apply Z.div_pos; [lia|apply pow2_pos; lia]).
  (* the truncated mantissa is canonical at [e1] *)
  assert (Hcan1 : 0 < m1 -> fexp64 (Zdigits2 m1 + e1) = e1).
  { intros H. unfold m1. rewrite Zdigits2_div_pow2 by (fold m1; lia).
    replace (Zdigits2 mx - (e1 - ex) + e1) with (Zdigits2 mx + ex) by lia.
    reflexivity. }
  assert (Hzero1 : m1 = 0 -> e1 = -1074).
  { intros H. destruct (Z.eq_dec mx 0) as [E|NE].
    - subst mx. simpl in e1. unfold fexp64 in *. simpl in Hex. lia.
    - destruct (Zdigits2_bounds mx ltac:(lia)) as [Hd [H1 H2]].
      assert (mx < 2 ^ (e1 - ex)).
      { destruct (Z_lt_le_dec mx (2 ^ (e1 - ex))); [assumption|].
        assert (1 <= m1); [|lia].
        unfold m1. apply Z.div_le_lower_bound; [apply pow2_pos|]; lia. }
      assert (Zdigits2 mx - 1 < e1 - ex) by (apply (Z.pow_lt_mono_r_iff 2); lia).
      unfold e1, fexp64 in *. lia. }
  unfold binary_round_aux.
  destruct (shr_fexp prec emax mx ex lx) as [mrs' e'] eqn:Hshr1.
  cbn [fst snd] in He1, Hm1. subst e'. rewrite Hm1.
  set (m1' := round_nearest_even m1 (loc_of_shr_record mrs')).
  pose proof (round_nearest_even_bounds m1 (loc_of_shr_record mrs')) as Hrne.
  fold m1' in Hrne.
  assert (Hex2 : e1 <= fexp64 (Zdigits2 m1' + e1)).
  { destruct (Z.eq_dec m1 0) as [E|NE].
    - rewrite (Hzero1 E). unfold fexp64. lia.
    - rewrite <- (Hcan1 ltac:(lia)) at 1.
      pose proof (Zdigits2_le m1 m1' ltac:(lia) ltac:(lia)).
      unfold fexp64. lia. }
  destruct (shr_fexp_spec m1' e1 loc_Exact ltac:(lia) Hex2) as [He2 Hm2].
  destruct (shr_fexp prec emax m1' e1 loc_Exact) as [mrs'' e''] eqn:Hshr2.
  cbn [fst snd] in He2, Hm2. subst e''.
  set (e2 := fexp64 (Zdigits2 m1' + e1)) in *.
  (* the second shift is by zero or one place and is exact *)
  assert (Hexact : shr_m mrs'' * 2 ^ (e2 - e1) = m1' /\
                   (0 < shr_m mrs'' -> Zdigits2 (shr_m mrs'') + e2 = Zdigits2 m1' + e1)).
  { rewrite Hm2.
    destruct (Z.eq_dec m1' 0) as [E0|NE0].
    { rewrite E0. rewrite Z.div_0_l by (pose proof (pow2_pos (e2 - e1)); lia). lia. }
    destruct (Z.eq_dec e2 e1) as [Ee|NEe].
    { rewrite Ee, Z.sub_diag. simpl (2 ^ 0). rewrite Z.div_1_r. lia. }
    (* a real shift: [m1'] is the power of two above a full mantissa *)
    assert (Hm1nz : 0 < m1).
    { destruct (Z_lt_le_dec 0 m1); [assumption|].
      assert (m1 = 0) by lia. assert (m1' = 1) by lia.
      exfalso. apply NEe. unfold e2. rewrite (Hzero1 H). rewrite H0. reflexivity. }
    pose proof (Hcan1 Hm1nz) as Hc.
    assert (Hsucc : m1' = m1 + 1).
    { destruct (Z.eq_dec m1' m1) as [E|NE]; [|lia].
      exfalso. apply NEe. unfold e2. rewrite E. exact Hc. }
    destruct (Zdigits2_succ m1 Hm1nz) as [Hs|[Hs Hpow]].
    { exfalso. apply NEe. unfold e2. rewrite Hsucc, Hs. exact Hc. }
    destruct (Zdigits2_bounds m1 Hm1nz) as [Hd _].
    assert (He21 : e2 = e1 + 1).
    { revert NEe. unfold e2. rewrite Hsucc, Hs. revert Hc. unfold fexp64. lia. }
    rewrite He21. replace (e1 + 1 - e1) with 1 by lia.
    change (2 ^ 1) with 2.
    rewrite Hsucc. rewrite Hpow in Hs |- *.
    pose proof (pow2_pos (Zdigits2 m1 - 1) ltac:(lia)) as Hpp.
    assert (Hhalf : 2 ^ Zdigits2 m1 / 2 = 2 ^ (Zdigits2 m1 - 1)).
    { replace (Zdigits2 m1) with (Z.succ (Zdigits2 m1 - 1)) at 1 by lia.
      rewrite Z.pow_succ_r by lia.
      rewrite (Z.mul_comm 2), Z.div_mul by lia. reflexivity. }
    assert (Hdh : Zdigits2 (2 ^ (Zdigits2 m1 - 1)) = Zdigits2 m1).
    { apply Zdigits2_unique; [|lia].
      split; [lia|]. apply Z.pow_lt_mono_r; lia. }
    rewrite Hhalf, Hs, Hdh.
    split; [|lia].
    replace (Zdigits2 m1) with (Z.succ (Zdigits2 m1 - 1)) at 2 by lia.
    rewrite Z.pow_succ_r by lia. lia. }
  destruct Hexact as [Hex1 Hex3].
  assert (Hm2pos : 0 <= shr_m mrs'').
  { rewrite Hm2. apply Z.div_pos; [lia|apply pow2_pos; lia]. }
  exists (shr_m mrs''), e2.
  split; [assumption|]. split; [assumption|].
  split; [rewrite Hex1; lia|].
  split.
  - intros H. rewrite (Hex3 H). reflexivity.
  - destruct (shr_m mrs''); reflexivity.
Qed.

(** A finite number is of the format when its exponent is the one the
    format gives its magnitude and is at most 971. *)
Lemma valid_finite (s : bool) (m : positive) (e : Z) :
  valid (S754_finite s m e) <->
  fexp64 (Zdigits2 (Zpos m) + e) = e /\ e <= 971.
Proof.
  unfold valid, valid_binary, bounded, canonical_mantissa.
  rewrite andb_true_iff, Z.eqb_eq, Z.leb_le. reflexivity.
Qed.

(** Left shifts, which align mantissas. *)
Lemma iter_xO (d m : positive) : Zpos (Pos.iter xO m d) = Zpos m * 2 ^ Zpos d.
Proof.
  induction d as [|d IH] using Pos.peano_ind.
  - simpl. lia.
  - rewrite Pos.iter_succ, Pos2Z.inj_succ, Z.pow_succ_r by lia.
    rewrite Pos2Z.inj_xO, IH. lia.
Qed.

Lemma shl_align_spec (mx : positive) (ex ex' : Z) :
  snd (shl_align mx ex ex') = Z.min ex ex' /\
  Zpos (fst (shl_align mx ex ex')) = Zpos mx * 2 ^ (ex - Z.min ex ex').
Proof.
  unfold shl_align. destruct (ex' - ex) as [|d|d] eqn:Hd; cbn [fst snd].
  - replace (Z.min ex ex') with ex by lia. rewrite Z.sub_diag. simpl. lia.
  - replace (Z.min ex ex') with ex by lia. rewrite Z.sub_diag. simpl. lia.
  - replace (Z.min ex ex') with ex' by lia. split; [reflexivity|].
    rewrite iter_xO. f_equal. f_equal. lia.
Qed.

Lemma Zdigits2_mul_pow2 (m k : Z) :
  0 < m -> 0 <= k -> Zdigits2 (m * 2 ^ k) = Zdigits2 m + k.
Proof.
  intros Hm Hk.
  destruct (Zdigits2_bounds m Hm) as [Hd [H1 H2]].
  pose proof (pow2_pos k Hk).
  apply Zdigits2_unique; [|nia].
  replace (Zdigits2 m + k - 1) with (Zdigits2 m - 1 + k) by lia.
  rewrite !Z.pow_add_r by lia. nia.
Qed.

(** The same in units of [2^-1074]: the result lies between the cut value
    [L] and [L + u], where [u] is the unit of the result, and either [u] is
    the least unit or the mantissa is full ([2^52 * u <= L]). *)
Lemma binary_round_aux_rounded (sx : bool) (mx ex : Z) (lx : location) :
  0 <= mx -> ex <= fexp64 (Zdigits2 mx + ex) ->
  let e1 := fexp64 (Zdigits2 mx + ex) in
  let u := 2 ^ (e1 + 1074) in
  let L := mx / 2 ^ (e1 - ex) * u in
  (u = 1 \/ 2 ^ 52 * u <= L) /\
  rounded sx L u (binary_round_aux prec emax sx mx ex lx).
Proof.
  intros Hmx Hex e1 u L.
  destruct (binary_round_aux_spec sx mx ex lx Hmx Hex)
    as (m2 & e2 & Hm2 & He2 & Hb & Hcan & Hr).
  fold e1 in He2, Hb. set (m1 := mx / 2 ^ (e1 - ex)) in *.
  assert (He1 : -1074 <= e1) by (unfold e1, fexp64; lia).
  assert (Hu : 0 < u) by (apply pow2_pos; lia).
  assert (Hm1 : 0 <= m1) by (apply Z.div_pos; [lia|apply pow2_pos; lia]).
  assert (Hue : forall e, e1 <= e -> 2 ^ (e + 1074) = 2 ^ (e - e1) * u).
  { intros e He. unfold u. rewrite <- Z.pow_add_r by lia. f_equal. lia. }
  split.
  - (* the unit is the smallest one or the mantissa is full *)
    destruct (Z.eq_dec e1 (-1074)) as [E|NE].
    + left. unfold u. rewrite E. reflexivity.
    + right. unfold L. fold m1.
      assert (2 ^ 52 <= m1); [|nia].
      destruct (Z.eq_dec m1 0) as [E0|NE0].
      * exfalso. (* nothing left after the shift: the exponent is minimal *)
        destruct (Z.eq_dec mx 0) as [Ex|NEx].
        { subst mx. unfold e1, fexp64 in *. simpl in *. lia. }
        destruct (Zdigits2_bounds mx ltac:(lia)) as [Hd [H1 H2]].
        assert (mx < 2 ^ (e1 - ex)).
        { destruct (Z_lt_le_dec mx (2 ^ (e1 - ex))); [assumption|].
          assert (1 <= m1); [|lia].
          unfold m1. apply Z.div_le_lower_bound; [apply pow2_pos|]; lia. }
        assert (Zdigits2 mx - 1 < e1 - ex) by (apply (Z.pow_lt_mono_r_iff 2); lia).
        unfold e1, fexp64 in *. lia.
      * assert (Hd1 : Zdigits2 m1 = Zdigits2 mx - (e1 - ex)).
        { unfold m1. apply Zdigits2_div_pow2; [lia|fold m1; lia]. }
        destruct (Zdigits2_bounds m1 ltac:(lia)) as [Hd [H1 H2]].
        assert (Zdigits2 m1 = 53) by (unfold e1, fexp64 in *; lia).
        replace 52 with (Zdigits2 m1 - 1) by lia. assumption.
  - destruct m2 as [|p|p]; try lia.
    + apply rounded_zero; [assumption|]. unfold L. fold m1. nia.
    + specialize (Hcan ltac:(lia)).
      assert (Hul : ulps (S754_finite sx p e2) = Zpos p * 2 ^ (e2 - e1) * u).
      { unfold ulps. rewrite (Hue e2 He2). lia. }
      destruct (e2 <=? 971) eqn:Hle.
      * apply Z.leb_le in Hle.
        eapply rounded_finite; [eassumption| |].
        -- rewrite Hr. apply valid_finite. split; assumption.
        -- rewrite Hr, Hul. unfold L. fold m1. nia.
      * apply Z.leb_gt in Hle.
        apply rounded_overflow; [assumption|].
        destruct (Zdigits2_bounds (Zpos p) ltac:(lia)) as [Hd [H1 H2]].
        assert (Hd53 : Zdigits2 (Zpos p) = 53) by (unfold fexp64 in Hcan; lia).
        rewrite Hd53 in H1. change (53 - 1) with 52 in H1.
        assert (2 ^ 52 * 2 ^ (e2 + 1074) <= L + u).
        { rewrite (Hue e2 He2). unfold L. fold m1.
          pose proof (pow2_pos (e2 - e1) ltac:(lia)). nia. }
        assert (2 ^ 2046 <= 2 ^ (e2 + 1074)) by (apply Z.pow_le_mono_r; lia).
        replace 2098 with (52 + 2046) by lia. rewrite Z.pow_add_r by lia.
        pose proof (pow2_pos 52 ltac:(lia)). nia.
Qed.

(** Rounding an integer multiple of the smallest unit. *)
Lemma binary_round_rounded (sx : bool) (mx : positive) (ex : Z) :
  -1074 <= ex ->
  exists L u,
    (u = 1 \/ 2 ^ 52 * u <= L) /\
    L <= Zpos mx * 2 ^ (ex + 1074) < L + u /\
    rounded sx L u (binary_round prec emax sx mx ex).
Proof.
  intros Hex. unfold binary_round. rewrite fexp_eq.
  change (Zpos (digits2_pos mx)) with (Zdigits2 (Zpos mx)).
  set (e0 := fexp64 (Zdigits2 (Zpos mx) + ex)).
  destruct (shl_align_spec mx ex e0) as [He Hm].
  destruct (shl_align mx ex e0) as [mz ez]. cbn [fst snd] in He, Hm. subst ez.
  set (ez := Z.min ex e0) in *.
  assert (Hdz : Zdigits2 (Zpos mz) + ez = Zdigits2 (Zpos mx) + ex).
  { rewrite Hm, Zdigits2_mul_pow2 by lia. lia. }
  assert (Hpre : ez <= fexp64 (Zdigits2 (Zpos mz) + ez)).
  { rewrite Hdz. fold e0. lia. }
  destruct (binary_round_aux_rounded sx (Zpos mz) ez loc_Exact ltac:(lia) Hpre)
    as [Hu Hr].
  rewrite Hdz in Hu, Hr. fold e0 in Hu, Hr.
  assert (He0 : -1074 <= e0) by (unfold e0, fexp64; lia).
  exists (Zpos mz / 2 ^ (e0 - ez) * 2 ^ (e0 + 1074)), (2 ^ (e0 + 1074)).
  split; [exact Hu|]. split; [|exact Hr].
  (* the value is [mz * 2^(ez + 1074)], cut at the unit [2^(e0 + 1074)] *)
  assert (Hval : Zpos mx * 2 ^ (ex + 1074) = Zpos mz * 2 ^ (ez + 1074)).
  { rewrite Hm, <- Z.mul_assoc, <- Z.pow_add_r by lia. do 2 f_equal. lia. }
  rewrite Hval.
  assert (Hsplit : 2 ^ (e0 + 1074) = 2 ^ (e0 - ez) * 2 ^ (ez + 1074)).
  { rewrite <- Z.pow_add_r by lia. f_equal. lia. }
  rewrite Hsplit.
  pose proof (pow2_pos (e0 - ez) ltac:(lia)) as Hp1.
  pose proof (pow2_pos (ez + 1074) ltac:(lia)) as Hp2.
  pose proof (Z.div_mod (Zpos mz) (2 ^ (e0 - ez)) ltac:(lia)) as Hdm.
  pose proof (Z.mod_pos_bound (Zpos mz) (2 ^ (e0 - ez)) Hp1) as Hmb.
  nia.
Qed.

Lemma valid_exponent (s : bool) (m : positive) (e : Z) :
  valid (S754_finite s m e) -> -1074 <= e <= 971.
Proof. intros H. apply valid_finite in H. unfold fexp64 in H. lia. Qed.

(** Adding two positive finite numbers: the exact sum of the magnitudes is
    cut at the unit of the result. *)
Lemma add_rounded (mx my : positive) (ex ey : Z) :
  valid (S754_finite false mx ex) -> valid (S754_finite false my ey) ->
  exists L u,
    (u = 1 \/ 2 ^ 52 * u <= L) /\
    L <= ulps (S754_finite false mx ex) + ulps (S754_finite false my ey) < L + u /\
    rounded false L u (add (S754_finite false mx ex) (S754_finite false my ey)).
Proof.
  intros Hx Hy.
  apply valid_exponent in Hx, Hy.
  unfold add, SFadd. cbn [cond_Zopp].
  set (ez := Z.min ex ey).
  destruct (shl_align_spec mx ex ez) as [_ Hmx].
  destruct (shl_align_spec my ey ez) as [_ Hmy].
  replace (Z.min ex ez) with ez in Hmx by lia.
  replace (Z.min ey ez) with ez in Hmy by lia.
  set (ax := fst (shl_align mx ex ez)) in *.
  set (ay := fst (shl_align my ey ez)) in *.
  change (Zpos ax + Zpos ay) with (Zpos (ax + ay)).
  cbn [binary_normalize].
  destruct (binary_round_rounded false (ax + ay) ez ltac:(lia)) as (L & u & Hu & Hb & Hr).
  exists L, u. split; [assumption|]. split; [|assumption].
  replace (ulps (S754_finite false mx ex) + ulps (S754_finite false my ey))
    with (Zpos (ax + ay) * 2 ^ (ez + 1074)); [assumption|].
  unfold ulps. rewrite Pos2Z.inj_add, Hmx, Hmy.
  rewrite Z.mul_add_distr_r, <- !Z.mul_assoc, <- !Z.pow_add_r by lia.
  do 2 f_equal; f_equal; lia.
Qed.

(** The quotient [SFdiv] hands to the rounding has enough digits. *)
Lemma SFdiv_core_spec (m1 m2 : positive) (e1 e2 : Z) :
  let e' := Z.min (fexp64 (Zdigits2 (Zpos m1) + e1 - (Zdigits2 (Zpos m2) + e2))) (e1 - e2) in
  let q := Zpos m1 * 2 ^ (e1 - e2 - e') / Zpos m2 in
  (exists l, SFdiv_core_binary prec emax (Zpos m1) e1 (Zpos m2) e2 = (q, e', l)) /\
  0 <= q /\ e' <= fexp64 (Zdigits2 q + e').
Proof.
  intros e' q.
  set (d1 := Zdigits2 (Zpos m1)) in *. set (d2 := Zdigits2 (Zpos m2)) in *.
  assert (Hs : 0 <= e1 - e2 - e') by (unfold e'; lia).
  pose proof (pow2_pos _ Hs) as Hps.
  split; [|split].
  - unfold SFdiv_core_binary. rewrite fexp_eq. fold d1 d2 e'.
    set (m' := match e1 - e2 - e' with
               | 0 => Zpos m1
               | Zpos _ => Z.shiftl (Zpos m1) (e1 - e2 - e')
               | Zneg _ => 0
               end).
    assert (Hm' : m' = Zpos m1 * 2 ^ (e1 - e2 - e')).
    { unfold m'. destruct (e1 - e2 - e') as [|p|p] eqn:E.
      - change (2 ^ 0) with 1. lia.
      - rewrite Z.shiftl_mul_pow2 by lia. reflexivity.
      - lia. }
    unfold q. rewrite <- Hm'. unfold Z.div.
    destruct (Z.div_eucl m' (Zpos m2)) as [q0 r0]. eexists. reflexivity.
  - apply Z.div_pos; lia.
  - destruct (Zdigits2_bounds (Zpos m1) ltac:(lia)) as [Hd1 [H1 H1']].
    destruct (Zdigits2_bounds (Zpos m2) ltac:(lia)) as [Hd2 [H2 H2']].
    fold d1 in Hd1, H1, H1'. fold d2 in Hd2, H2, H2'.
    set (s := e1 - e2 - e') in *.
    assert (Hlow : 2 ^ (d1 - 1 + s) <= Zpos m1 * 2 ^ s).
    { rewrite Z.pow_add_r by lia. nia. }
    destruct (Z.eq_dec q 0) as [E|NE].
    + (* the dividend is below the divisor: the exponent is minimal *)
      rewrite E. simpl Zdigits2.
      assert (Zpos m1 * 2 ^ s < Zpos m2).
      { destruct (Z_lt_le_dec (Zpos m1 * 2 ^ s) (Zpos m2)); [assumption|].
        assert (1 <= q); [|lia].
        unfold q. apply Z.div_le_lower_bound; lia. }
      assert (d1 - 1 + s < d2) by (apply (Z.pow_lt_mono_r_iff 2); lia).
      unfold e', s, fexp64 in *. lia.
    + assert (Hq : 0 < q).
      { assert (0 <= q) by (apply Z.div_pos; lia). lia. }
      destruct (Zdigits2_bounds q Hq) as [Hdq [Hq1 Hq2]].
      assert (Hdq' : d1 + s - d2 <= Zdigits2 q).
      { destruct (Z_lt_le_dec (Zdigits2 q) (d1 + s - d2)) as [Hlt|]; [|lia].
        exfalso.
        (* q < 2^dq, so the dividend is below 2^dq * m2 < 2^(dq + d2) *)
        pose proof (Z.mul_succ_div_gt (Zpos m1 * 2 ^ s) (Zpos m2) ltac:(lia)) as Hsd.
        fold q in Hsd.
        assert (Zpos m1 * 2 ^ s < 2 ^ (Zdigits2 q + d2)).
        { rewrite Z.pow_add_r by lia.
          pose proof (pow2_pos (Zdigits2 q) ltac:(lia)). nia. }
        assert (d1 - 1 + s < Zdigits2 q + d2) by (apply (Z.pow_lt_mono_r_iff 2); lia).
        lia. }
      unfold e', s, fexp64 in *. lia.
Qed.

(** Every quotient of finite numbers is a valid number. *)
Lemma rounded_valid (sx : bool) (L u : Z) (r : number) : rounded sx L u r -> valid r.
Proof. intros [-> _| -> _|m e _ H _]; [reflexivity|reflexivity|assumption]. Qed.

Lemma div_finite_valid (sx sy : bool) (mx my : positive) (ex ey : Z) :
  valid (div (S754_finite sx mx ex) (S754_finite sy my ey)).
Proof.
  unfold div, SFdiv.
  destruct (SFdiv_core_spec mx my ex ey) as ([l Hcore] & Hq & Hpre).
  rewrite Hcore.
  eapply rounded_valid. eapply binary_round_aux_rounded; eassumption.
Qed.

Lemma hundred_eq : hundred = S754_finite false 7036874417766400 (-46).
Proof. reflexivity. Qed.

(** Dividing a finite number by 100: a hundred times the result is the
    magnitude of the dividend, cut at the unit of the result. *)
Lemma div_hundred_rounded (s : bool) (m : positive) (e : Z) :
  valid (S754_finite s m e) ->
  exists L u,
    0 <= L /\ 0 < u /\
    (u = 1 \/ 2 ^ 52 * u <= L) /\
    100 * L <= ulps (S754_finite s m e) < 100 * (L + u) /\
    rounded s L u (div (S754_finite s m e) hundred).
Proof.
  intros Hv. apply valid_exponent in Hv.
  rewrite hundred_eq. unfold div, SFdiv.
  destruct (SFdiv_core_spec m 7036874417766400 e (-46)) as ([l Hcore] & Hq & Hpre).
  rewrite Hcore. clear Hcore.
  change (Zdigits2 7036874417766400) with 53 in *.
  set (e' := Z.min (fexp64 (Zdigits2 (Zpos m) + e - (53 + -46))) (e - -46)) in *.
  set (sh := e - -46 - e') in *.
  set (q := Zpos m * 2 ^ sh / 7036874417766400) in *.
  replace (xorb s false) with s by (destruct s; reflexivity).
  destruct (binary_round_aux_rounded s q e' l Hq Hpre) as [Hu Hr].
  set (e1 := fexp64 (Zdigits2 q + e')) in *.
  set (u := 2 ^ (e1 + 1074)) in *.
  set (m1 := q / 2 ^ (e1 - e')) in *.
  assert (He1 : -1074 <= e1) by (unfold e1, fexp64; lia).
  assert (Hupos : 0 < u) by (apply pow2_pos; lia).
  assert (Hk : 0 < 2 ^ (e1 - e')) by (apply pow2_pos; lia).
  assert (Hm1 : 0 <= m1) by (apply Z.div_pos; lia).
  exists (m1 * u), u.
  split; [nia|]. split; [assumption|]. split; [assumption|]. split; [|assumption].
  (* m1 is the quotient of [m * 2^sh] by [100 * 2^46 * 2^(e1 - e')] *)
  assert (Hsh : 0 <= sh) by (unfold sh, e'; lia).
  pose proof (pow2_pos sh Hsh) as Hpsh.
  assert (Hm1' : m1 = Zpos m * 2 ^ sh / (7036874417766400 * 2 ^ (e1 - e'))).
  { unfold m1, q. rewrite Z.div_div by lia. reflexivity. }
  pose proof (Z.mul_div_le (Zpos m * 2 ^ sh) (7036874417766400 * 2 ^ (e1 - e')) ltac:(lia)) as Hlo.
  pose proof (Z.mul_succ_div_gt (Zpos m * 2 ^ sh) (7036874417766400 * 2 ^ (e1 - e')) ltac:(lia)) as Hhi.
  rewrite <- Hm1' in Hlo, Hhi.
  change 7036874417766400 with (100 * 2 ^ 46) in Hlo, Hhi.
  unfold ulps.
  (* both sides are brought to a common power of two *)
  destruct (Z_le_gt_dec 0 (e' + 1028)) as [Hc|Hc].
  - assert (E1 : u = 2 ^ 46 * 2 ^ (e1 - e') * 2 ^ (e' + 1028)).
    { unfold u. rewrite <- !Z.pow_add_r by lia. f_equal. lia. }
    assert (E2 : 2 ^ (e + 1074) = 2 ^ sh * 2 ^ (e' + 1028)).
    { rewrite <- Z.pow_add_r by lia. f_equal. unfold sh. lia. }
    rewrite E1, E2.
    pose proof (pow2_pos (e' + 1028) Hc). nia.
  - assert (E1 : 2 ^ 46 * 2 ^ (e1 - e') = u * 2 ^ (- (e' + 1028))).
    { unfold u. rewrite <- !Z.pow_add_r by lia. f_equal. lia. }
    assert (E2 : 2 ^ sh = 2 ^ (e + 1074) * 2 ^ (- (e' + 1028))).
    { rewrite <- Z.pow_add_r by lia. f_equal. unfold sh. lia. }
    pose proof (pow2_pos (- (e' + 1028)) ltac:(lia)).
    pose proof (pow2_pos (e + 1074) ltac:(lia)).
    replace (100 * 2 ^ 46 * 2 ^ (e1 - e')) with (100 * (u * 2 ^ (- (e' + 1028)))) in Hlo, Hhi
      by (rewrite <- E1; lia).
    rewrite E2 in Hlo, Hhi.
    split; nia.
Qed.

(** Valid mantissas: at most 53 digits, exactly 53 above the least exponent. *)
Lemma valid_mantissa (s : bool) (m : positive) (e : Z) :
  valid (S754_finite s m e) ->
  Zpos m < 2 ^ 53 /\ (-1074 < e -> 2 ^ 52 <= Zpos m).
Proof.
  intros H. apply valid_finite in H. destruct H as [Hc _].
  destruct (Zdigits2_bounds (Zpos m) ltac:(lia)) as [Hd [H1 H2]].
  split.
  - assert (Zdigits2 (Zpos m) <= 53) by (unfold fexp64 in Hc; lia).
    assert (2 ^ Zdigits2 (Zpos m) <= 2 ^ 53) by (apply Z.pow_le_mono_r; lia). lia.
  - intros He. assert (E : Zdigits2 (Zpos m) = 53) by (unfold fexp64 in Hc; lia).
    rewrite E in H1. exact H1.
Qed.

Lemma ulps_lt_of_exponent (s s' : bool) (m m' : positive) (e e' : Z) :
  valid (S754_finite s m e) -> valid (S754_finite s' m' e') -> e < e' ->
  ulps (S754_finite s m e) < ulps (S754_finite s' m' e').
Proof.
  intros Hx Hy Hlt.
  pose proof (valid_exponent _ _ _ Hx). pose proof (valid_exponent _ _ _ Hy).
  destruct (valid_mantissa _ _ _ Hx) as [Hm _].
  destruct (valid_mantissa _ _ _ Hy) as [_ Hm'].
  specialize (Hm' ltac:(lia)).
  unfold ulps.
  replace (e' + 1074) with ((e' - e - 1) + 1 + (e + 1074)) by lia.
  rewrite (Z.pow_add_r 2 (e' - e - 1 + 1) (e + 1074)) by lia.
  rewrite (Z.pow_add_r 2 (e' - e - 1) 1) by lia. change (2 ^ 1) with 2.
  pose proof (pow2_pos (e' - e - 1) ltac:(lia)).
  pose proof (pow2_pos (e + 1074) ltac:(lia)).
  change (2 ^ 53) with (2 ^ 52 * 2) in Hm.
  pose proof (pow2_pos 52 ltac:(lia)).
  set (K := 2 ^ 52) in *. set (P := 2 ^ (e + 1074)) in *.
  set (A := 2 ^ (e' - e - 1)) in *.
  assert (Zpos m * P < K * 2 * P) by nia.
  assert (K * 2 * P <= Zpos m' * 2 * P) by nia.
  assert (Zpos m' * 2 * P <= Zpos m' * (A * 2 * P)) by nia.
  lia.
Qed.

Lemma ulps_pos (s : bool) (m : positive) (e : Z) :
  -1074 <= e -> 0 < ulps (S754_finite s m e).
Proof. intros. unfold ulps. pose proof (pow2_pos (e + 1074) ltac:(lia)). nia. Qed.

Lemma compare_mul_r (n m p : Z) : 0 < p -> (n * p ?= m * p) = (n ?= m).
Proof.
  intros Hp. destruct (Z.compare_spec n m) as [->|H|H].
  - apply Z.compare_refl.
  - apply Z.compare_lt_iff. nia.
  - apply Z.compare_gt_iff. nia.
Qed.

(** The comparison of valid numbers of one sign is that of the magnitudes. *)
Lemma compare_positive (m m' : positive) (e e' : Z) :
  valid (S754_finite false m e) -> valid (S754_finite false m' e') ->
  SFcompare (S754_finite false m e) (S754_finite false m' e') =
  Some (ulps (S754_finite false m e) ?= ulps (S754_finite false m' e')).
Proof.
  intros Hx Hy. cbn [SFcompare]. f_equal.
  destruct (e ?= e') eqn:He.
  - apply Z.compare_eq in He. subst e'.
    pose proof (valid_exponent _ _ _ Hx).
    unfold ulps. rewrite compare_mul_r by (apply pow2_pos; lia).
    reflexivity.
  - apply Z.compare_lt_iff in He. symmetry. apply Z.compare_lt_iff.
    now apply ulps_lt_of_exponent.
  - apply Z.compare_gt_iff in He. symmetry. apply Z.compare_gt_iff.
    now apply ulps_lt_of_exponent.
Qed.

Lemma compare_negative (m m' : positive) (e e' : Z) :
  valid (S754_finite true m e) -> valid (S754_finite true m' e') ->
  SFcompare (S754_finite true m e) (S754_finite true m' e') =
  Some (ulps (S754_finite true m' e') ?= ulps (S754_finite true m e)).
Proof.
  intros Hx Hy. cbn [SFcompare]. f_equal.
  destruct (e ?= e') eqn:He.
  - apply Z.compare_eq in He. subst e'.
    pose proof (valid_exponent _ _ _ Hx).
    unfold ulps. rewrite compare_mul_r by (apply pow2_pos; lia).
    change (PosDef.Pos.compare_cont Eq m m') with (Pos.compare m m').
    change (Zpos m' ?= Zpos m) with (Pos.compare m' m).
    symmetry. apply Pos.compare_antisym.
  - apply Z.compare_lt_iff in He. symmetry. apply Z.compare_gt_iff.
    now apply ulps_lt_of_exponent.
  - apply Z.compare_gt_iff in He. symmetry. apply Z.compare_lt_iff.
    now apply ulps_lt_of_exponent.
Qed.


Lemma ulps_below_overflow (s : bool) (m : positive) (e : Z) :
  valid (S754_finite s m e) -> ulps (S754_finite s m e) < 2 ^ 2098.
Proof.
  intros Hv.
  destruct (valid_mantissa _ _ _ Hv) as [Hm _].
  pose proof (valid_exponent _ _ _ Hv) as He.
  unfold ulps.
  assert (2 ^ (e + 1074) <= 2 ^ 2045) by (apply Z.pow_le_mono_r; lia).
  pose proof (pow2_pos (e + 1074) ltac:(lia)).
  change (2 ^ 2098) with (2 ^ 53 * 2 ^ 2045).
  pose proof (pow2_pos 2045 ltac:(lia)). nia.
Qed.

(** A hundredth of a finite number: no overflow, and a magnitude at most
    that of the number. *)
Lemma div_hundred_finite (s : bool) (m : positive) (e : Z) :
  valid (S754_finite s m e) ->
  exists L u,
    0 <= L /\ 0 < u /\ (u = 1 \/ 2 ^ 52 * u <= L) /\
    100 * L <= ulps (S754_finite s m e) < 100 * (L + u) /\
    L + u <= ulps (S754_finite s m e) /\
    (div (S754_finite s m e) hundred = S754_zero s /\ L = 0 \/
     exists ms es,
       div (S754_finite s m e) hundred = S754_finite s ms es /\
       valid (S754_finite s ms es) /\
       L <= ulps (S754_finite s ms es) <= L + u).
Proof.
  intros Hv.
  destruct (div_hundred_rounded s m e Hv) as (L & u & HL & Hu & Hun & Hb & Hr).
  pose proof (ulps_below_overflow s m e Hv) as Hov.
  pose proof (ulps_pos s m e (proj1 (valid_exponent _ _ _ Hv))) as Hpos.
  assert (Hsum : L + u <= ulps (S754_finite s m e)).
  { destruct Hun as [->|Hun]; nia. }
  exists L, u. repeat (split; [assumption|]).
  destruct Hr as [Hr Ho|Hr Hz|ms es Hr Hvs Hbs].
  - exfalso. lia.
  - left. now split.
  - right. exists ms, es. rewrite <- Hr. repeat split; try assumption; lia.
Qed.

(** ** One counter *)

Lemma ticks_cleared (n : nat) (t : interval) : cleared t = true -> ticks n t = t.
Proof. intros H. destruct n; cbn [ticks]; [reflexivity|now rewrite H]. Qed.

Lemma calls_cleared (n : nat) (t : interval) : cleared t = true -> calls n t = O.
Proof. intros H. destruct n; cbn [calls]; [reflexivity|now rewrite H]. Qed.

Lemma writes_cleared (n : nat) (t : interval) : cleared t = true -> writes n t = [].
Proof. intros H. destruct n; cbn [writes]; [reflexivity|now rewrite H]. Qed.

Lemma calls_le (n : nat) : forall t, (calls n t <= n)%nat.
Proof.
  induction n as [|n IH]; intros t; cbn [calls]; [lia|].
  destruct (cleared t); [lia|]. specialize (IH (fst (callback t))). lia.
Qed.

Lemma calls_add (n m : nat) :
  forall t, calls (n + m) t = (calls n t + calls m (ticks n t))%nat.
Proof.
  induction n as [|n IH]; intros t; cbn [calls ticks Nat.add]; [reflexivity|].
  destruct (cleared t) eqn:Hc.
  - now rewrite calls_cleared.
  - now rewrite IH.
Qed.

(** Once the timer is cleared within [k] periods, the callback has run at
    most [k] times, however long one waits. *)
Lemma calls_bound (k : nat) (t : interval) :
  cleared (ticks k t) = true -> forall n, (calls n t <= k)%nat.
Proof.
  intros Hc n. destruct (Nat.le_gt_cases n k) as [Hle|Hgt].
  - pose proof (calls_le n t). lia.
  - replace n with (k + (n - k))%nat by lia.
    rewrite calls_add, (calls_cleared _ _ Hc). pose proof (calls_le k t). lia.
Qed.

Lemma callback_target (t : interval) : target (fst (callback t)) = target t.
Proof. reflexivity. Qed.

Lemma callback_step (t : interval) : step (fst (callback t)) = step t.
Proof. reflexivity. Qed.

Lemma callback_decimals (t : interval) : decimals (fst (callback t)) = decimals t.
Proof. reflexivity. Qed.

Lemma callback_count (t : interval) :
  count (fst (callback t)) =
  if ge (add (count t) (step t)) (target t) then target t
  else add (count t) (step t).
Proof. reflexivity. Qed.

Lemma callback_cleared (t : interval) :
  cleared (fst (callback t)) =
  if ge (add (count t) (step t)) (target t) then true else cleared t.
Proof. reflexivity. Qed.

Lemma callback_written (t : interval) :
  snd (callback t) = toFixed (count (fst (callback t))) (decimals t).
Proof. reflexivity. Qed.

Lemma ge_positive (m m' : positive) (e e' : Z) :
  valid (S754_finite false m e) -> valid (S754_finite false m' e') ->
  ge (S754_finite false m e) (S754_finite false m' e') =
  (ulps (S754_finite false m' e') <=? ulps (S754_finite false m e)).
Proof.
  intros Hx Hy. unfold ge. rewrite compare_positive by assumption.
  destruct (Z.compare_spec (ulps (S754_finite false m e)) (ulps (S754_finite false m' e')));
    symmetry; [apply Z.leb_le|apply Z.leb_gt|apply Z.leb_le]; lia.
Qed.

Lemma ge_negative (m m' : positive) (e e' : Z) :
  valid (S754_finite true m e) -> valid (S754_finite true m' e') ->
  ge (S754_finite true m e) (S754_finite true m' e') =
  (ulps (S754_finite true m e) <=? ulps (S754_finite true m' e')).
Proof.
  intros Hx Hy. unfold ge. rewrite compare_negative by assumption.
  destruct (Z.compare_spec (ulps (S754_finite true m' e')) (ulps (S754_finite true m e)));
    symmetry; [apply Z.leb_le|apply Z.leb_gt|apply Z.leb_le]; lia.
Qed.

(** *** A positive normal target: the timer is cleared within 101 periods *)

Section Loop.
Variables mt ms : positive.
Variables et es L u : Z.
Let T := S754_finite false mt et.
Let s := S754_finite false ms es.
Hypothesis T_valid : valid T.
Hypothesis s_valid : valid s.
Hypothesis T_normal : 2 ^ 52 <= ulps T.
Hypothesis L_nonneg : 0 <= L.
Hypothesis u_pos : 0 < u.
Hypothesis unit : u = 1 \/ 2 ^ 52 * u <= L.
Hypothesis T_below : ulps T < 100 * (L + u).
Hypothesis s_above : L <= ulps s.

(** A bound on what one addition below the target can lose: one unit of
    the target. *)
Let E := ulps T / 2 ^ 52 + 1.

Lemma E_bounds : 1 <= E /\ ulps T < 2 ^ 52 * E /\ 2 ^ 52 * (E - 1) <= ulps T.
Proof.
  unfold E. pose proof (pow2_pos 52 ltac:(lia)) as Hp.
  pose proof (Z.mul_succ_div_gt (ulps T) (2 ^ 52) Hp).
  pose proof (Z.mul_div_le (ulps T) (2 ^ 52) Hp).
  assert (0 <= ulps T / 2 ^ 52) by (apply Z.div_pos; lia).
  lia.
Qed.

(** One more run: the clamp fires or the count stays within the bound. *)
Lemma below_next (k : Z) (c : number) :
  below T s E k c -> ge (add c s) T = true \/ below T s E (k + 1) (add c s).
Proof.
  destruct E_bounds as (HE1 & HE2 & HE3).
  pose proof (ulps_pos false ms es (proj1 (valid_exponent _ _ _ s_valid))) as Hs.
  fold s in Hs.
  intros [[-> ->]|(Hk & m & e & -> & Hv & Hlt & Hsum)].
  - (* the first run: the count is the step *)
    change (add zero s) with s. unfold s, T. rewrite ge_positive by assumption.
    fold s T. destruct (ulps T <=? ulps s) eqn:Hc; [now left|].
    apply Z.leb_gt in Hc. right. right. split; [lia|].
    exists ms, es. repeat split; try assumption. fold s. lia.
  - destruct (add_rounded m ms e es Hv s_valid) as (L' & u' & Hu' & Hb & Hr).
    fold s in Hb, Hr.
    pose proof (ulps_pos false m e (proj1 (valid_exponent _ _ _ Hv))) as Hc0.
    destruct Hr as [Hr Ho|Hr Hz|m1 e1 Hr Hv1 Hb1].
    + left. rewrite Hr. reflexivity.
    + exfalso. subst L'. destruct Hu' as [->|Hu']; lia.
    + rewrite Hr in *. unfold T. rewrite ge_positive by assumption.
      fold T. destruct (ulps T <=? ulps (S754_finite false m1 e1)) eqn:Hc; [now left|].
      apply Z.leb_gt in Hc. right. right. split; [lia|].
      exists m1, e1. repeat split; try assumption.
      assert (u' <= E) by (destruct Hu' as [->|Hu']; lia).
      lia.
Qed.

(** No count is still below the target after 101 runs. *)
Lemma below_101 (c : number) : below T s E 101 c -> False.
Proof.
  destruct E_bounds as (HE1 & HE2 & HE3).
  intros [[H _]|(_ & m & e & -> & Hv & Hlt & Hsum)]; [lia|].
  set (C := ulps (S754_finite false m e)) in *.
  set (S := ulps s) in *. set (Tu := ulps T) in *.
  set (U := 2 ^ 52) in *.
  assert (HU : U = 4503599627370496) by reflexivity.
  destruct unit as [Hu1|Hu].
  - subst u. nia.
  - assert (U * S < 100 * S + 101 * (U * E)) by nia.
    nia.
Qed.

Lemma ticks_clear (j : nat) :
  forall (k : Z) (t : interval),
    Z.of_nat j + k = 101 -> 0 <= k ->
    target t = T -> step t = s -> cleared t = false ->
    below T s E k (count t) ->
    cleared (ticks j t) = true.
Proof.
  induction j as [|j IH]; intros k t Hjk Hk Ht Hs Hc Hb.
  - exfalso. apply (below_101 (count t)). replace 101 with k by lia. assumption.
  - cbn [ticks]. rewrite Hc.
    destruct (ge (add (count t) s) T) eqn:Hge.
    + rewrite ticks_cleared; rewrite callback_cleared, Hs, Ht, Hge; reflexivity.
    + destruct (below_next k (count t) Hb) as [Hge'|Hnext]; [congruence|].
      apply (IH (k + 1)); try lia.
      * now rewrite callback_target.
      * now rewrite callback_step.
      * now rewrite callback_cleared, Hs, Ht, Hge.
      * now rewrite callback_count, Hs, Ht, Hge.
Qed.
End Loop.

Lemma launch_launched (i : nat) (e : element) :
  launched (parseFloat (data_target e)) (launch i e).
Proof. repeat split. Qed.

Lemma positive_normal_cleared (mt : positive) (et : Z) (t : interval) :
  valid (S754_finite false mt et) ->
  2 ^ 52 <= ulps (S754_finite false mt et) ->
  launched (S754_finite false mt et) t ->
  cleared (ticks 101 t) = true.
Proof.
  intros Hv Hn (Ht & Hs & Hc & Hcl).
  destruct (div_hundred_finite false mt et Hv)
    as (L & u & HL & Hu & Hun & Hb & Hsum & [[Hz HL0]|(ms & es & Hd & Hvs & Hbs)]).
  - exfalso. subst L. destruct Hun as [->|Hun]; [|lia].
    assert (2 ^ 52 <= 100); [lia|]. simpl. lia.
  - eapply (ticks_clear mt ms et es L u) with (k := 0);
      try eassumption; try lia.
    + now rewrite Hs, Hd.
    + left. now split.
Qed.

(** *** Targets that are not positive: the first run clears the timer *)

Lemma valid_min_normal : valid min_normal.
Proof. reflexivity. Qed.

(** For a negative finite target the step lies between the target and
    zero, and so does the count of the first run before the clamp. *)
Lemma negative_step (m : positive) (e : Z) :
  valid (S754_finite true m e) ->
  ge zero (div (S754_finite true m e) hundred) = true /\
  ge (div (S754_finite true m e) hundred) (S754_finite true m e) = true /\
  ge (add zero (div (S754_finite true m e) hundred)) (S754_finite true m e) = true.
Proof.
  intros Hv.
  destruct (div_hundred_finite true m e Hv)
    as (L & u & HL & Hu & Hun & Hb & Hsum & [[Hz HL0]|(ms & es & Hd & Hvs & Hbs)]).
  - rewrite Hz. repeat split.
  - rewrite Hd. change (add zero (S754_finite true ms es)) with (S754_finite true ms es).
    split; [reflexivity|].
    rewrite ge_negative by assumption.
    assert (H : (ulps (S754_finite true ms es) <=? ulps (S754_finite true m e)) = true)
      by (apply Z.leb_le; lia).
    now rewrite H.
Qed.

Lemma first_run_clears (T : number) (t : interval) :
  valid T -> launched T t ->
  ge zero T = true \/ T = infinity ->
  ge (add (count t) (step t)) (target t) = true.
Proof.
  intros Hv (Ht & Hs & Hc & _) Hsign. rewrite Ht, Hs, Hc.
  destruct T as [s|s| |s m e].
  - destruct s; reflexivity.
  - destruct s; reflexivity.
  - destruct Hsign as [H|H]; discriminate.
  - destruct s.
    + now apply negative_step.
    + destruct Hsign as [H|H]; discriminate.
Qed.

Lemma reached_callback (t : interval) :
  ge (add (count t) (step t)) (target t) = true ->
  cleared (fst (callback t)) = true /\
  count (fst (callback t)) = target t /\
  snd (callback t) = toFixed (target t) (decimals t).
Proof.
  intros H. rewrite callback_written, callback_cleared, callback_count, H.
  repeat split.
Qed.

Lemma reached_calls (t : interval) :
  ge (add (count t) (step t)) (target t) = true ->
  forall n, (calls n t <= 1)%nat.
Proof.
  intros H. apply calls_bound. cbn [ticks].
  destruct (cleared t) eqn:Hc; [assumption|].
  now apply reached_callback.
Qed.

(** *** Comparisons *)

Lemma ge_lt_false (x y : number) : ge x y = true -> lt x y = false.
Proof. unfold ge, lt. destruct (SFcompare x y) as [[ | | ]|]; congruence. Qed.

Lemma lt_ge_false (x y : number) : lt x y = true -> ge x y = false.
Proof. unfold ge, lt. destruct (SFcompare x y) as [[ | | ]|]; congruence. Qed.

Lemma compare_cont_swap (m m' : positive) :
  Pos.compare_cont Eq m' m = CompOpp (Pos.compare_cont Eq m m').
Proof. symmetry. apply (Pos.compare_cont_antisym m m' Eq). Qed.

(** Swapping the operands of a comparison reverses its answer. *)
Lemma SFcompare_swap (x y : number) :
  SFcompare y x = option_map CompOpp (SFcompare x y).
Proof.
  destruct x as [sx|sx| |sx mx ex], y as [sy|sy| |sy my ey];
    try reflexivity;
    try (destruct sx; reflexivity);
    try (destruct sy; reflexivity);
    try (destruct sx, sy; reflexivity).
  cbn [SFcompare option_map].
  destruct sx, sy; try reflexivity.
  - rewrite (Z.compare_antisym ex ey).
    destruct (ex ?= ey); try reflexivity.
    cbn [CompOpp]. f_equal.
    rewrite (compare_cont_swap mx my). now rewrite CompOpp_involutive.
  - rewrite (Z.compare_antisym ex ey).
    destruct (ex ?= ey); try reflexivity.
    cbn [CompOpp]. f_equal. apply compare_cont_swap.
Qed.

Lemma SFcompare_refl (x : number) : is_nan x = false -> SFcompare x x = Some Eq.
Proof.
  destruct x as [s|s| |s m e]; intros H; try discriminate.
  - reflexivity.
  - destruct s; reflexivity.
  - cbn [SFcompare]. rewrite Z.compare_refl.
    change (PosDef.Pos.compare_cont Eq m m) with (Pos.compare m m).
    rewrite Pos.compare_refl. destruct s; reflexivity.
Qed.

Lemma ge_refl (x : number) : is_nan x = false -> ge x x = true.
Proof. intros H. unfold ge. now rewrite SFcompare_refl. Qed.

Lemma SFcompare_nan (x y : number) :
  is_nan x = false -> is_nan y = false -> SFcompare x y <> None.
Proof.
  destruct x as [sx|sx| |sx mx ex], y as [sy|sy| |sy my ey];
    intros Hx Hy; try discriminate.
Qed.

(** Of two numbers, one is at least the other. *)
Lemma ge_total (x y : number) :
  is_nan x = false -> is_nan y = false -> ge x y = false -> ge y x = true.
Proof.
  intros Hx Hy. unfold ge. rewrite (SFcompare_swap x y).
  pose proof (SFcompare_nan x y Hx Hy) as Hn.
  destruct (SFcompare x y) as [[ | | ]|]; simpl; congruence.
Qed.

(** *** Counts of a counter whose target is not negative *)

Lemma good_not_nan (x : number) : good x -> is_nan x = false.
Proof. destruct x as [s|s| |[|] m e]; simpl; intros H; try reflexivity; contradiction. Qed.

Lemma rounded_good (L u : Z) (r : number) :
  rounded false L u r -> good r \/ r = infinity.
Proof.
  intros [-> _| -> _|m e Hr Hv _].
  - now right.
  - now left.
  - left. subst r. exact Hv.
Qed.

Lemma add_good (c s : number) :
  good c -> good s \/ s = infinity -> good (add c s) \/ add c s = infinity.
Proof.
  intros Hc [Hs| ->].
  - destruct c as [sc|sc| |[|] mc ec], s as [ss|ss| |[|] ms es];
      try contradiction.
    + left. destruct sc, ss; exact I.
    + left. exact Hs.
    + left. exact Hc.
    + destruct (add_rounded mc ms ec es Hc Hs) as (L & u & _ & _ & Hr).
      eapply rounded_good. eassumption.
  - right. destruct c as [sc|sc| |[|] mc ec]; try contradiction; reflexivity.
Qed.

Lemma div_hundred_good (T : number) :
  good T \/ T = infinity ->
  good (div T hundred) \/ div T hundred = infinity.
Proof.
  intros [H| ->]; [|now right].
  destruct T as [s|s| |[|] m e]; try contradiction.
  - left. exact I.
  - destruct (div_hundred_rounded false m e H) as (L & u & _ & _ & _ & _ & Hr).
    eapply rounded_good. eassumption.
Qed.

Lemma nonnegative_cases (T : number) :
  valid T -> ge T zero = true -> good T \/ T = infinity.
Proof.
  intros Hv H. destruct T as [s|[|]| |[|] m e]; try discriminate.
  - left. exact I.
  - now right.
  - left. exact Hv.
Qed.

Lemma launched_at_most (T : number) (t : interval) :
  ge T zero = true -> launched T t -> at_most_target T t.
Proof.
  intros H (Ht & Hs & Hc & Hcl). repeat split; try assumption.
  - now rewrite Hc.
  - right. rewrite Hc. exact I.
Qed.

Lemma callback_at_most (T : number) (t : interval) :
  good T \/ T = infinity ->
  at_most_target T t -> cleared t = false ->
  at_most_target T (fst (callback t)).
Proof.
  intros HT (Ht & Hs & Hle & Hgood) Hcl.
  destruct Hgood as [Hc|Hc]; [congruence|].
  assert (HTn : is_nan T = false).
  { destruct HT as [HT| ->]; [now apply good_not_nan|reflexivity]. }
  pose proof (add_good (count t) (div T hundred) Hc (div_hundred_good T HT)) as Hsum.
  unfold at_most_target.
  rewrite callback_target, callback_step, callback_count, callback_cleared, Ht, Hs.
  destruct (ge (add (count t) (div T hundred)) T) eqn:Hge.
  - repeat split; try assumption.
    + now apply ge_refl.
    + now left.
  - repeat split; try assumption.
    + apply ge_total; try assumption.
      destruct Hsum as [Hg|Hi]; [now apply good_not_nan|now rewrite Hi].
    + right. destruct Hsum as [Hg|Hi]; [assumption|].
      exfalso. rewrite Hi in Hge.
      destruct T as [s|[|]| |s m e]; try discriminate;
        destruct HT as [HT|HT]; try contradiction; try discriminate.
Qed.

Lemma ticks_at_most (T : number) (n : nat) :
  good T \/ T = infinity ->
  forall t, at_most_target T t -> at_most_target T (ticks n t).
Proof.
  intros HT. induction n as [|n IH]; intros t H; cbn [ticks]; [assumption|].
  destruct (cleared t) eqn:Hc; [assumption|].
  apply IH. now apply callback_at_most.
Qed.

(** ** What [parseFloat] returns is a number of the format *)

Lemma SFopp_valid (x : number) : valid x -> valid (SFopp x).
Proof. destruct x; intros H; exact H. Qed.

Lemma of_Z_valid (z : Z) : valid (of_Z z).
Proof.
  unfold of_Z, binary_normalize. destruct z as [|p|p].
  - reflexivity.
  - destruct (binary_round_rounded false p 0 ltac:(lia)) as (L & u & _ & _ & Hr).
    eapply rounded_valid. eassumption.
  - destruct (binary_round_rounded true p 0 ltac:(lia)) as (L & u & _ & _ & Hr).
    eapply rounded_valid. eassumption.
Qed.

Lemma of_decimal_valid (d e : Z) : valid (of_decimal d e).
Proof.
  unfold of_decimal. destruct d as [|p|p]; try reflexivity.
  destruct (0 <=? e).
  - apply of_Z_valid.
  - apply div_finite_valid.
Qed.

Lemma read_unsigned_valid (l : list N) (v : number) :
  read_unsigned l = Some v -> valid v.
Proof.
  unfold read_unsigned.
  destruct (starts_with (bytes "Infinity") l).
  - intros H. injection H as <-. reflexivity.
  - destruct (read_digits l 0 0) as [[ip nip] r1].
    destruct (after 46 r1) as [r2|].
    + destruct (read_digits r2 0 0) as [[fp nfp] r3].
      destruct nip, nfp; intros H; try discriminate;
        injection H as <-; apply of_decimal_valid.
    + destruct nip; intros H; try discriminate.
      injection H as <-. apply of_decimal_valid.
Qed.

Lemma read_literal_valid (l : list N) (v : number) :
  read_literal l = Some v -> valid v.
Proof.
  unfold read_literal.
  destruct (after 45 l) as [r|].
  - destruct (read_unsigned r) as [w|] eqn:Hr; intros H; try discriminate.
    injection H as <-. apply SFopp_valid. eapply read_unsigned_valid. eassumption.
  - destruct (after 43 l) as [r|]; apply read_unsigned_valid.
Qed.

Lemma parseFloat_valid (v : option string) : valid (parseFloat v).
Proof.
  unfold parseFloat, parseFloat_bytes.
  destruct (read_literal (trim_start (bytes (ToString v)))) as [w|] eqn:H.
  - eapply read_literal_valid. eassumption.
  - reflexivity.
Qed.

(** ** Runs of one counter *)

Lemma ticks_add (n m : nat) :
  forall t, ticks (n + m) t = ticks m (ticks n t).
Proof.
  induction n as [|n IH]; intros t; cbn [ticks Nat.add]; [reflexivity|].
  destruct (cleared t) eqn:Hc; [now rewrite ticks_cleared|apply IH].
Qed.



Lemma ticks_decimals (n : nat) : forall t, decimals (ticks n t) = decimals t.
Proof.
  induction n as [|n IH]; intros t; cbn [ticks]; [reflexivity|].
  destruct (cleared t); [reflexivity|]. now rewrite IH.
Qed.

(** The run that clears the timer is the last one, and it assigns the
    target. *)
Lemma cleared_last_write (n : nat) :
  forall t, cleared t = false -> cleared (ticks n t) = true ->
  count (ticks n t) = target t /\
  exists earlier, writes n t = earlier ++ [toFixed (target t) (decimals t)].
Proof.
  induction n as [|n IH]; intros t Hc Hn; cbn [ticks writes] in *; [congruence|].
  rewrite Hc in *.
  destruct (cleared (fst (callback t))) eqn:Hc'.
  - rewrite ticks_cleared, writes_cleared by assumption.
    rewrite callback_cleared in Hc'.
    destruct (ge (add (count t) (step t)) (target t)) eqn:Hge; [|congruence].
    destruct (reached_callback t Hge) as (_ & Hcount & Hw).
    split; [assumption|]. exists []. now rewrite Hw.
  - destruct (IH (fst (callback t)) Hc' Hn) as [Hcount [earlier Hw]].
    split; [assumption|].
    exists (snd (callback t) :: earlier). now rewrite Hw.
Qed.

(** *** A target that is not a number *)




(** ** The text [toFixed] returns *)

Lemma length_append (a b : string) :
  String.length (a ++ b) = (String.length a + String.length b)%nat.
Proof. induction a as [|c a IH]; simpl; [reflexivity|now rewrite IH]. Qed.

Lemma length_zeros (n : nat) : String.length (zeros n) = n.
Proof. induction n as [|n IH]; simpl; [reflexivity|now rewrite IH]. Qed.

Lemma length_substring (s : string) :
  forall n m, (n + m <= String.length s)%nat -> String.length (substring n m s) = m.
Proof.
  induction s as [|c s IH]; intros n m H; simpl in H.
  - assert (n = O) by lia. assert (m = O) by lia. subst. reflexivity.
  - destruct n as [|n].
    + destruct m as [|m]; simpl; [reflexivity|]. rewrite IH; [reflexivity|lia].
    + simpl. apply IH. lia.
Qed.

(** With [f > 0] fraction digits asked for, the digits are cut by a point
    before exactly the last [f] of them. *)
Lemma fixed_digits_fraction (n : Z) (f : nat) :
  (0 < f)%nat ->
  exists a b, fixed_digits n f = (a ++ "." ++ b)%string /\ String.length b = f.
Proof.
  intros Hf. unfold fixed_digits. destruct f as [|f']; [lia|].
  set (f := S f') in *.
  set (m0 := decimal n).
  set (m := if Nat.leb (String.length m0) f
            then (zeros (f + 1 - String.length m0) ++ m0)%string else m0).
  assert (Hlen : (f + 1 <= String.length m)%nat).
  { unfold m. destruct (Nat.leb (String.length m0) f) eqn:Hle.
    - apply Nat.leb_le in Hle. rewrite length_append, length_zeros. lia.
    - apply Nat.leb_gt in Hle. lia. }
  exists (substring 0 (String.length m - f) m), (substring (String.length m - f) f m).
  split; [reflexivity|].
  apply length_substring. lia.
Qed.

Lemma toFixed_fraction (s : bool) (m : positive) (e : Z) (d : number) (f : nat) :
  ToIntegerOrInfinity d = Finite (Z.of_nat f) ->
  (0 < f <= 100)%nat ->
  at_least_1e21 m e = false ->
  exists a b,
    toFixed (S754_finite s m e) d = Return (a ++ "." ++ b)%string /\
    String.length b = f.
Proof.
  intros Hd Hf Hbig. unfold toFixed. rewrite Hd, Hbig.
  assert (H : (Z.of_nat f <? 0) || (100 <? Z.of_nat f) = false).
  { apply orb_false_iff. split; [apply Z.ltb_ge|apply Z.ltb_ge]; lia. }
  rewrite H, Nat2Z.id.
  destruct (fixed_digits_fraction (scaled_nearest m e (Z.of_nat f)) f ltac:(lia))
    as (a & b & Hab & Hb).
  rewrite Hab.
  exists ((if s then "-" else EmptyString) ++ a)%string, b.
  split; [|assumption].
  destruct s; reflexivity.
Qed.

(** ** The page *)

Lemma animateTicker_started (g : geometry) (p : page) :
  started p = true -> animateTicker g p = p.
Proof. intros H. unfold animateTicker. now rewrite H. Qed.

Lemma fire_started (i : nat) (p : page) :
  started (fst (fire i p)) = started p.
Proof.
  unfold fire. destruct (nth_error (intervals p) i) as [t|]; [|reflexivity].
  destruct (cleared t); [reflexivity|].
  destruct (snd (callback t)); reflexivity.
Qed.

Lemma dispatch_keeps_started (ev : event) (p : page) :
  started p = true -> started (fst (dispatch ev p)) = true.
Proof.
  intros H. destruct ev as [g|i]; cbn [dispatch].
  - destruct (listening p); cbn [fst]; [now rewrite animateTicker_started|assumption].
  - now rewrite fire_started.
Qed.

Lemma starts_trace_bound (evs : list event) :
  forall p, (starts p (trace evs p) <= if started p then 0 else 1)%nat.
Proof.
  induction evs as [|ev rest IH]; intros p; cbn [trace starts].
  - destruct (started p); lia.
  - specialize (IH (fst (dispatch ev p))).
    destruct (started p) eqn:Hp.
    + rewrite (dispatch_keeps_started ev p Hp) in *. simpl. lia.
    + destruct (started (fst (dispatch ev p))); simpl in *; lia.
Qed.

Lemma forEach_length (els : list element) :
  forall i, List.length (forEach i els) = List.length els.
Proof. induction els as [|e r IH]; intros i; simpl; [reflexivity|now rewrite IH]. Qed.

Lemma update_length {A : Type} (f : A -> A) (l : list A) :
  forall i, List.length (update i f l) = List.length l.
Proof.
  induction l as [|x r IH]; intros [|j]; simpl; try reflexivity.
  now rewrite IH.
Qed.

Lemma update_nth_same {A : Type} (f : A -> A) (l : list A) :
  forall i x, nth_error l i = Some x -> nth_error (update i f l) i = Some (f x).
Proof.
  induction l as [|y r IH]; intros [|j] x H; simpl in *; try discriminate.
  - now injection H as ->.
  - now apply IH.
Qed.

Lemma update_nth_other {A : Type} (f : A -> A) (l : list A) :
  forall i j, i <> j -> nth_error (update i f l) j = nth_error l j.
Proof.
  induction l as [|y r IH]; intros [|i] [|j] H; simpl; try reflexivity; try congruence.
  apply IH. congruence.
Qed.

Lemma fire_intervals_length (i : nat) (p : page) :
  List.length (intervals (fst (fire i p))) = List.length (intervals p).
Proof.
  unfold fire. destruct (nth_error (intervals p) i) as [t|]; [|reflexivity].
  destruct (cleared t); [reflexivity|].
  destruct (snd (callback t)); cbn [fst intervals]; apply update_length.
Qed.

Lemma fire_counters_length (i : nat) (p : page) :
  List.length (counters (fst (fire i p))) = List.length (counters p).
Proof.
  unfold fire. destruct (nth_error (intervals p) i) as [t|]; [|reflexivity].
  destruct (cleared t); [reflexivity|].
  destruct (snd (callback t)); cbn [fst counters]; [apply update_length|reflexivity].
Qed.

Lemma dispatch_one_launch (n : nat) (ev : event) (p : page) :
  one_launch n p -> one_launch n (fst (dispatch ev p)).
Proof.
  intros [Hc Hi]. destruct ev as [g|i]; cbn [dispatch].
  - destruct (listening p); cbn [fst]; [|now split].
    unfold animateTicker. destruct (started p) eqn:Hs; [now split; [|rewrite Hs]|].
    destruct (lt (top g) (innerHeight g)).
    + split; cbn [counters intervals started]; [assumption|].
      rewrite List.length_app, forEach_length. lia.
    + split; [assumption|now rewrite Hs].
  - split.
    + now rewrite fire_counters_length.
    + now rewrite fire_intervals_length, fire_started.
Qed.

Lemma run_one_launch (n : nat) (evs : list event) :
  forall p, one_launch n p -> one_launch n (run evs p).
Proof.
  induction evs as [|ev rest IH]; intros p H; cbn [run]; [assumption|].
  apply IH. now apply dispatch_one_launch.
Qed.

Lemma dispatch_blank (ev : event) : dispatch ev blank = (blank, Return tt).
Proof. destruct ev as [g|[|i]]; reflexivity. Qed.

Lemma run_blank (evs : list event) : run evs blank = blank.
Proof.
  induction evs as [|ev rest IH]; cbn [run]; [reflexivity|].
  now rewrite dispatch_blank.
Qed.

(** Each interval runs on its own: whatever the events of a run, scrolls
    and the periods of other intervals included, the closure of the [i]-th
    interval is the one its own periods lead to. *)
Lemma animateTicker_interval (g : geometry) (p : page) (i : nat) (t : interval) :
  nth_error (intervals p) i = Some t ->
  nth_error (intervals (animateTicker g p)) i = Some t.
Proof.
  intros H. unfold animateTicker.
  destruct (started p); [assumption|].
  destruct (lt (top g) (innerHeight g)); [|assumption].
  cbn [intervals]. rewrite nth_error_app1; [assumption|].
  apply nth_error_Some. congruence.
Qed.

Lemma fire_interval_same (i : nat) (p : page) (t : interval) :
  nth_error (intervals p) i = Some t ->
  nth_error (intervals (fst (fire i p))) i =
  Some (if cleared t then t else fst (callback t)).
Proof.
  intros H. unfold fire. rewrite H.
  destruct (cleared t); [assumption|].
  destruct (snd (callback t)); cbn [fst intervals];
    now apply update_nth_same with (x := t).
Qed.

Lemma fire_interval_other (i j : nat) (p : page) :
  i <> j ->
  nth_error (intervals (fst (fire j p))) i = nth_error (intervals p) i.
Proof.
  intros H. unfold fire.
  destruct (nth_error (intervals p) j) as [t|]; [|reflexivity].
  destruct (cleared t); [reflexivity|].
  destruct (snd (callback t)); cbn [fst intervals];
    apply update_nth_other; congruence.
Qed.

Lemma run_interval (evs : list event) :
  forall (p : page) (i : nat) (t : interval),
    nth_error (intervals p) i = Some t ->
    nth_error (intervals (run evs p)) i = Some (ticks (periods i evs) t).
Proof.
  induction evs as [|ev rest IH]; intros p i t H; cbn [run periods ticks].
  - assumption.
  - destruct ev as [g|j]; cbn [dispatch].
    + apply IH. destruct (listening p); cbn [fst]; [|assumption].
      now apply animateTicker_interval.
    + destruct (Nat.eqb i j) eqn:Hij.
      * apply Nat.eqb_eq in Hij. subst j. cbn [ticks].
        rewrite (IH _ i _ (fire_interval_same i p t H)).
        destruct (cleared t) eqn:Hc; [|reflexivity].
        now rewrite ticks_cleared.
      * apply Nat.eqb_neq in Hij. apply IH.
        now rewrite fire_interval_other.
Qed.

(** ** The page over a run of events *)

Lemma forEach_nth (els : list element) :
  forall k i, nth_error (forEach k els) i = option_map (launch (k + i)) (nth_error els i).
Proof.
  induction els as [|e rest IH]; intros k [|i]; cbn [forEach nth_error option_map];
    try reflexivity.
  - now rewrite Nat.add_0_r.
  - rewrite IH. now rewrite Nat.add_succ_r.
Qed.

Lemma forEach_own (els : list element) (i : nat) (t : interval) :
  nth_error (forEach 0 els) i = Some t -> el t = i.
Proof.
  rewrite forEach_nth. destruct (nth_error els i); [|discriminate].
  intros H. injection H as <-. reflexivity.
Qed.

(** The page the load leaves when the container is in view. *)
Lemma loaded_in_view (els : list element) (g : geometry) :
  lt (top g) (innerHeight g) = true ->
  fst (DOMContentLoaded (Some els) g blank) =
  {| listening := true; counters := els; started := true;
     intervals := forEach 0 els |}.
Proof.
  intros H. cbn [DOMContentLoaded fst]. unfold animateTicker.
  cbn [started setup top]. now rewrite H.
Qed.

Lemma update_nth_inv {A : Type} (f : A -> A) (l : list A) :
  forall i k x, nth_error (update i f l) k = Some x ->
  (k = i /\ exists y, nth_error l i = Some y /\ x = f y) \/
  (k <> i /\ nth_error l k = Some x).
Proof.
  intros i k x H. destruct (Nat.eq_dec k i) as [->|Hne].
  - left. split; [reflexivity|].
    destruct (nth_error l i) as [y|] eqn:Hy.
    + rewrite (update_nth_same f l i y Hy) in H. injection H as <-. now exists y.
    + exfalso. apply nth_error_None in Hy.
      assert (Hlen : nth_error (update i f l) i = None).
      { apply nth_error_None. now rewrite update_length. }
      congruence.
  - right. split; [assumption|].
    rewrite update_nth_other in H by congruence. exact H.
Qed.

Lemma fire_own (j : nat) (p : page) :
  own_elements p -> own_elements (fst (fire j p)).
Proof.
  intros Hown. unfold fire.
  destruct (nth_error (intervals p) j) as [t|] eqn:Hj; [|assumption].
  destruct (cleared t); [assumption|].
  assert (H : forall i x,
             nth_error (update j (fun _ => fst (callback t)) (intervals p)) i = Some x ->
             el x = i).
  { intros i x Hx.
    destruct (update_nth_inv _ _ _ _ _ Hx) as [[-> (y & Hy & ->)]|[_ Hx']].
    - cbn [el callback fst]. now apply Hown.
    - now apply Hown. }
  destruct (snd (callback t)); exact H.
Qed.

Lemma fire_counter_other (i j : nat) (p : page) :
  own_elements p -> i <> j ->
  nth_error (counters (fst (fire j p))) i = nth_error (counters p) i.
Proof.
  intros Hown Hij. unfold fire.
  destruct (nth_error (intervals p) j) as [t|] eqn:Hj; [|reflexivity].
  destruct (cleared t); [reflexivity|].
  destruct (snd (callback t)); cbn [fst counters]; [|reflexivity].
  apply update_nth_other. rewrite (Hown j t Hj). congruence.
Qed.

Lemma set_text_same (c : element) : set_text (textContent c) c = c.
Proof. now destruct c. Qed.

Lemma shown_app (ws ws' : list (completion string)) :
  forall old, shown old (ws ++ ws') = shown (shown old ws) ws'.
Proof.
  induction ws as [|[s|] rest IH]; intros old; cbn [shown app];
    [reflexivity|apply IH|apply IH].
Qed.

Lemma shown_throws (k : nat) (old : string) :
  shown old (repeat ThrowRangeError k) = old.
Proof. induction k as [|k IH]; cbn [shown repeat]; [reflexivity|exact IH]. Qed.

(** The text of an element is what the runs of its own interval assigned. *)
Lemma run_text (evs : list event) :
  forall (p : page) (i : nat) (t : interval) (c : element),
    started p = true -> own_elements p ->
    nth_error (intervals p) i = Some t ->
    nth_error (counters p) i = Some c ->
    nth_error (counters (run evs p)) i =
    Some (set_text (shown (textContent c) (writes (periods i evs) t)) c).
Proof.
  induction evs as [|ev rest IH]; intros p i t c Hs Hown Ht Hc;
    cbn [run periods writes shown].
  - now rewrite set_text_same.
  - destruct ev as [g|j]; cbn [dispatch].
    + apply IH; try assumption;
        destruct (listening p); cbn [fst]; try assumption;
        now rewrite (animateTicker_started g p Hs).
    + assert (Hs' : started (fst (fire j p)) = true) by now rewrite fire_started.
      pose proof (fire_own j p Hown) as Hown'.
      destruct (Nat.eqb i j) eqn:Hij.
      * apply Nat.eqb_eq in Hij. subst j.
        pose proof (fire_interval_same i p t Ht) as Ht'.
        cbn [writes].
        destruct (cleared t) eqn:Hcl.
        -- assert (Hp : fst (fire i p) = p) by (unfold fire; now rewrite Ht, Hcl).
           rewrite Hp in *.
           rewrite (IH p i t c Hs Hown Ht Hc).
           now rewrite writes_cleared.
        -- destruct (snd (callback t)) as [s|] eqn:Hw.
           ++ assert (Hc' : nth_error (counters (fst (fire i p))) i = Some (set_text s c)).
              { unfold fire. rewrite Ht, Hcl, Hw. cbn [fst counters].
                rewrite (Hown i t Ht). now apply update_nth_same. }
              rewrite (IH _ i _ _ Hs' Hown' Ht' Hc'). reflexivity.
           ++ assert (Hc' : nth_error (counters (fst (fire i p))) i = Some c).
              { unfold fire. rewrite Ht, Hcl, Hw. exact Hc. }
              rewrite (IH _ i _ _ Hs' Hown' Ht' Hc'). reflexivity.
      * apply Nat.eqb_neq in Hij.
        apply IH; try assumption.
        -- now rewrite fire_interval_other.
        -- now rewrite fire_counter_other.
Qed.

(** Until the container comes into view the page stays as the load left
    it. *)
Lemma quiet_dispatch (ev : event) (p : page) :
  quiet ev -> started p = false -> intervals p = [] ->
  fst (dispatch ev p) = p.
Proof.
  intros Hq Hs Hi. destruct ev as [g|j]; cbn [dispatch].
  - destruct (listening p); [|reflexivity].
    cbn [fst]. unfold animateTicker. rewrite Hs. cbn [quiet] in Hq. now rewrite Hq.
  - unfold fire. rewrite Hi. now destruct j.
Qed.

Lemma quiet_run (evs : list event) (p : page) :
  Forall quiet evs -> started p = false -> intervals p = [] ->
  run evs p = p.
Proof.
  intros Hq Hs Hi. induction Hq as [|ev rest Hev _ IH]; cbn [run]; [reflexivity|].
  now rewrite (quiet_dispatch ev p Hev Hs Hi).
Qed.

(** *** What the timing depends on *)

Lemma callback_same_timing (t t' : interval) :
  same_timing t t' -> same_timing (fst (callback t)) (fst (callback t')).
Proof.
  intros (Ht & Hs & Hc & Hcl). unfold same_timing.
  rewrite !callback_target, !callback_step, !callback_count, !callback_cleared.
  rewrite Ht, Hs, Hc, Hcl. repeat split.
Qed.

Lemma ticks_same_timing (n : nat) :
  forall t t', same_timing t t' ->
  same_timing (ticks n t) (ticks n t') /\ calls n t = calls n t'.
Proof.
  induction n as [|n IH]; intros t t' H; cbn [ticks calls]; [now split|].
  pose proof H as (_ & _ & _ & Hcl). rewrite Hcl.
  destruct (cleared t'); [now split|].
  destruct (IH _ _ (callback_same_timing t t' H)) as [H1 H2].
  split; [assumption|now rewrite H2].
Qed.

(** *** What [toFixed] accepts *)

Lemma toFixed_accepted (x d : number) :
  accepted d = true -> exists s, toFixed x d = Return s.
Proof.
  unfold accepted, toFixed. destruct (ToIntegerOrInfinity d) as [f| |]; try discriminate.
  intros H. apply andb_true_iff in H. destruct H as [H0 H100].
  apply Z.leb_le in H0, H100.
  assert (Hb : (f <? 0) || (100 <? f) = false).
  { apply orb_false_iff. split; apply Z.ltb_ge; lia. }
  rewrite Hb. destruct x as [s|[|]| |s m e]; try (eexists; reflexivity).
  destruct (at_least_1e21 m e); eexists; reflexivity.
Qed.

Lemma toFixed_refused (x d : number) :
  accepted d = false -> toFixed x d = ThrowRangeError.
Proof.
  unfold accepted, toFixed. destruct (ToIntegerOrInfinity d) as [f| |]; try reflexivity.
  intros H. apply andb_false_iff in H.
  assert (Hb : (f <? 0) || (100 <? f) = true).
  { apply orb_true_iff. destruct H as [H|H]; [left|right];
      [apply Z.leb_gt in H|apply Z.leb_gt in H]; apply Z.ltb_lt; lia. }
  now rewrite Hb.
Qed.

Lemma writes_refused (n : nat) :
  forall t, accepted (decimals t) = false ->
  writes n t = repeat ThrowRangeError (calls n t).
Proof.
  induction n as [|n IH]; intros t H; cbn [writes calls repeat]; [reflexivity|].
  destruct (cleared t); [reflexivity|].
  rewrite callback_written, (toFixed_refused _ _ H). cbn [repeat].
  now rewrite IH.
Qed.

Lemma writes_accepted (n : nat) :
  forall t, accepted (decimals t) = true ->
  Forall (fun w => exists s, w = Return s) (writes n t).
Proof.
  induction n as [|n IH]; intros t H; cbn [writes]; [constructor|].
  destruct (cleared t); [constructor|].
  constructor.
  - rewrite callback_written. now apply toFixed_accepted.
  - now apply IH.
Qed.

(** A target in the range of the bound of 101 runs has cleared its timer
    after 101 periods. *)
Lemma launched_cleared_101 (T : number) (t : interval) :
  valid T -> launched T t ->
  ge zero T = true \/ ge T min_normal = true ->
  cleared (ticks 101 t) = true.
Proof.
  intros Hv Hl H.
  assert (Hcases : (ge zero T = true \/ T = infinity) \/
                   exists m x, T = S754_finite false m x /\ 2 ^ 52 <= ulps T).
  { destruct T as [s|s| |s m x].
    - left. left. destruct s; reflexivity.
    - left. destruct s; [now left|now right].
    - destruct H as [H|H]; discriminate.
    - destruct s; [left; now left|].
      destruct H as [H|H]; [discriminate|].
      right. exists m, x. split; [reflexivity|].
      unfold min_normal in H. rewrite ge_positive in H by (assumption || reflexivity).
      apply Z.leb_le in H. exact H. }
  destruct Hcases as [Hneg|(m & x & HT & Hn)].
  - pose proof (first_run_clears T t Hv Hl Hneg) as Hge.
    destruct (reached_callback _ Hge) as (Hc1 & _).
    destruct Hl as (_ & _ & _ & Hcl).
    assert (H1 : ticks 1 t = fst (callback t)) by (cbn [ticks]; now rewrite Hcl).
    change 101%nat with (1 + 100)%nat. rewrite ticks_add, H1.
    now rewrite ticks_cleared.
  - subst T. now apply (positive_normal_cleared m x).
Qed.

(** ** More on addition: the grid of the result *)

(** The rounding of an integer multiple of the least unit, with its unit
    [2^(e0 + 1074)] and the cut value [q] times that unit made explicit. *)
Lemma binary_round_grid (sx : bool) (mx : positive) (ex : Z) :
  -1074 <= ex ->
  exists e0 q,
    -1074 <= e0 /\ 0 <= q /\ (e0 = -1074 \/ 2 ^ 52 <= q) /\
    q * 2 ^ (e0 + 1074) <= Zpos mx * 2 ^ (ex + 1074) < (q + 1) * 2 ^ (e0 + 1074) /\
    rounded sx (q * 2 ^ (e0 + 1074)) (2 ^ (e0 + 1074)) (binary_round prec emax sx mx ex).
Proof.
  intros Hex. unfold binary_round. rewrite fexp_eq.
  change (Zpos (digits2_pos mx)) with (Zdigits2 (Zpos mx)).
  set (e0 := fexp64 (Zdigits2 (Zpos mx) + ex)).
  destruct (shl_align_spec mx ex e0) as [He Hm].
  destruct (shl_align mx ex e0) as [mz ez]. cbn [fst snd] in He, Hm. subst ez.
  set (ez := Z.min ex e0) in *.
  assert (Hdz : Zdigits2 (Zpos mz) + ez = Zdigits2 (Zpos mx) + ex).
  { rewrite Hm, Zdigits2_mul_pow2 by lia. lia. }
  assert (Hpre : ez <= fexp64 (Zdigits2 (Zpos mz) + ez)).
  { rewrite Hdz. fold e0. lia. }
  destruct (binary_round_aux_rounded sx (Zpos mz) ez loc_Exact ltac:(lia) Hpre)
    as [Hu Hr].
  rewrite Hdz in Hu, Hr. fold e0 in Hu, Hr.
  assert (He0 : -1074 <= e0) by (unfold e0, fexp64; lia).
  pose proof (pow2_pos (e0 - ez) ltac:(lia)) as Hp1.
  pose proof (pow2_pos (ez + 1074) ltac:(lia)) as Hp2.
  pose proof (pow2_pos (e0 + 1074) ltac:(lia)) as Hp3.
  set (q := Zpos mz / 2 ^ (e0 - ez)) in *.
  assert (Hq : 0 <= q) by (apply Z.div_pos; lia).
  exists e0, q.
  split; [assumption|]. split; [assumption|]. split; [|split; [|exact Hr]].
  - destruct (Z.eq_dec e0 (-1074)) as [E|NE]; [now left|right].
    destruct Hu as [Hu|Hu]; [|nia].
    exfalso.
    assert (2 ^ 1 <= 2 ^ (e0 + 1074)) by (apply Z.pow_le_mono_r; lia).
    change (2 ^ 1) with 2 in *. lia.
  - assert (Hval : Zpos mx * 2 ^ (ex + 1074) = Zpos mz * 2 ^ (ez + 1074)).
    { rewrite Hm, <- Z.mul_assoc, <- Z.pow_add_r by lia. do 2 f_equal. lia. }
    rewrite Hval.
    assert (Hsplit : 2 ^ (e0 + 1074) = 2 ^ (e0 - ez) * 2 ^ (ez + 1074)).
    { rewrite <- Z.pow_add_r by lia. f_equal. lia. }
    rewrite Hsplit.
    pose proof (Z.div_mod (Zpos mz) (2 ^ (e0 - ez)) ltac:(lia)) as Hdm.
    pose proof (Z.mod_pos_bound (Zpos mz) (2 ^ (e0 - ez)) Hp1) as Hmb.
    fold q in Hdm. nia.
Qed.

Lemma add_grid (mx my : positive) (ex ey : Z) :
  valid (S754_finite false mx ex) -> valid (S754_finite false my ey) ->
  exists e0 q,
    -1074 <= e0 /\ 0 <= q /\ (e0 = -1074 \/ 2 ^ 52 <= q) /\
    q * 2 ^ (e0 + 1074)
      <= ulps (S754_finite false mx ex) + ulps (S754_finite false my ey)
      < (q + 1) * 2 ^ (e0 + 1074) /\
    rounded false (q * 2 ^ (e0 + 1074)) (2 ^ (e0 + 1074))
            (add (S754_finite false mx ex) (S754_finite false my ey)).
Proof.
  intros Hx Hy.
  apply valid_exponent in Hx, Hy.
  unfold add, SFadd. cbn [cond_Zopp].
  set (ez := Z.min ex ey).
  destruct (shl_align_spec mx ex ez) as [_ Hmx].
  destruct (shl_align_spec my ey ez) as [_ Hmy].
  replace (Z.min ex ez) with ez in Hmx by lia.
  replace (Z.min ey ez) with ez in Hmy by lia.
  set (ax := fst (shl_align mx ex ez)) in *.
  set (ay := fst (shl_align my ey ez)) in *.
  change (Zpos ax + Zpos ay) with (Zpos (ax + ay)).
  cbn [binary_normalize].
  destruct (binary_round_grid false (ax + ay) ez ltac:(lia))
    as (e0 & q & He0 & Hq & Hn & Hb & Hr).
  exists e0, q. repeat (split; [assumption|]). split; [|assumption].
  replace (ulps (S754_finite false mx ex) + ulps (S754_finite false my ey))
    with (Zpos (ax + ay) * 2 ^ (ez + 1074)); [assumption|].
  unfold ulps. rewrite Pos2Z.inj_add, Hmx, Hmy.
  rewrite Z.mul_add_distr_r, <- !Z.mul_assoc, <- !Z.pow_add_r by lia.
  do 2 f_equal; f_equal; lia.
Qed.

(** Adding a positive number never gives less: the cut of the exact sum at
    the unit of the result is not below the first operand, which is on the
    grid of that unit or below its least full mantissa. *)
Lemma add_finite_ge_left (mx my : positive) (ex ey : Z) :
  valid (S754_finite false mx ex) -> valid (S754_finite false my ey) ->
  ge (add (S754_finite false mx ex) (S754_finite false my ey))
     (S754_finite false mx ex) = true.
Proof.
  intros Hx Hy.
  destruct (add_grid mx my ex ey Hx Hy) as (e0 & q & He0 & Hq & Hn & Hb & Hr).
  pose proof (valid_exponent _ _ _ Hx) as Hex.
  pose proof (ulps_pos false my ey (proj1 (valid_exponent _ _ _ Hy))) as Hy0.
  pose proof (ulps_pos false mx ex (proj1 Hex)) as Hx0.
  destruct (valid_mantissa _ _ _ Hx) as [Hm53 _].
  pose proof (pow2_pos (e0 + 1074) ltac:(lia)) as Hu.
  set (u := 2 ^ (e0 + 1074)) in *.
  set (X := ulps (S754_finite false mx ex)) in *.
  assert (HXL : X <= q * u).
  { destruct (Z_le_gt_dec e0 ex) as [Hle|Hgt].
    - (* the operand is a multiple of the unit *)
      assert (HX : X = Zpos mx * 2 ^ (ex - e0) * u).
      { unfold X, ulps, u. rewrite <- Z.mul_assoc, <- Z.pow_add_r by lia.
        do 2 f_equal. lia. }
      set (a := Zpos mx * 2 ^ (ex - e0)) in *.
      assert (a < q + 1) by nia. nia.
    - (* the operand is below the least full mantissa of the unit *)
      destruct Hn as [E|Hfull]; [lia|].
      assert (HX : X * 2 ^ (e0 - ex) = Zpos mx * u).
      { unfold X, ulps, u. rewrite <- Z.mul_assoc, <- Z.pow_add_r by lia.
        do 2 f_equal. lia. }
      assert (2 ^ 1 <= 2 ^ (e0 - ex)) by (apply Z.pow_le_mono_r; lia).
      change (2 ^ 1) with 2 in *.
      change (2 ^ 53) with (2 * 2 ^ 52) in Hm53.
      pose proof (pow2_pos 52 ltac:(lia)).
      set (K := 2 ^ 52) in *. set (P := 2 ^ (e0 - ex)) in *.
      assert (X * P < 2 * K * u) by nia.
      assert (X * 2 <= X * P) by nia.
      assert (X < K * u) by lia.
      nia. }
  destruct Hr as [Hr _|Hr HL|m e Hr Hv Hbs].
  - rewrite Hr. reflexivity.
  - exfalso. lia.
  - rewrite Hr in *. rewrite ge_positive by assumption.
    apply Z.leb_le. fold X. lia.
Qed.

Lemma add_ge_left (c s : number) :
  good c -> good s \/ s = infinity -> ge (add c s) c = true.
Proof.
  intros Hc [Hs| ->].
  - destruct c as [sc|sc| |[|] mc ec], s as [ss|ss| |[|] ms es];
      try contradiction.
    + destruct sc, ss; reflexivity.
    + reflexivity.
    + change (add (S754_finite false mc ec) (S754_zero ss)) with (S754_finite false mc ec).
      now apply ge_refl.
    + now apply add_finite_ge_left.
  - destruct c as [sc|sc| |[|] mc ec]; try contradiction; reflexivity.
Qed.

(** *** A positive normal target: the timer still goes after 99 periods *)

Lemma not_cleared_calls (k : nat) :
  forall t, cleared (ticks k t) = false -> calls k t = k.
Proof.
  induction k as [|k IH]; intros t H; cbn [ticks calls] in *; [reflexivity|].
  destruct (cleared t) eqn:Hc; [congruence|].
  now rewrite IH.
Qed.

Section Lower.
Variables mt ms : positive.
Variables et es L u : Z.
Let T := S754_finite false mt et.
Let s := S754_finite false ms es.
Hypothesis T_valid : valid T.
Hypothesis s_valid : valid s.
Hypothesis T_normal : 2 ^ 52 <= ulps T.
Hypothesis L_nonneg : 0 <= L.
Hypothesis u_pos : 0 < u.
Hypothesis unit : u = 1 \/ 2 ^ 52 * u <= L.
Hypothesis T_above : 100 * L <= ulps T.
Hypothesis s_below : ulps s <= L + u.

Let E := ulps T / 2 ^ 52 + 1.

(** Up to 99 steps with their losses stay below the target. *)
Lemma steps_below_target (k : Z) :
  0 <= k <= 99 ->
  k * ulps s + k * E < ulps T /\ 2 ^ 52 * E > ulps T /\ 1 <= E.
Proof.
  intros Hk.
  pose proof (pow2_pos 52 ltac:(lia)) as Hp.
  pose proof (Z.mul_succ_div_gt (ulps T) (2 ^ 52) Hp) as H1.
  pose proof (Z.mul_div_le (ulps T) (2 ^ 52) Hp) as H2.
  assert (H3 : 0 <= ulps T / 2 ^ 52) by (apply Z.div_pos; lia).
  pose proof (ulps_pos false ms es (proj1 (valid_exponent _ _ _ s_valid))) as Hs.
  fold s in Hs. unfold E.
  set (D := ulps T / 2 ^ 52) in *. set (Tu := ulps T) in *. set (S := ulps s) in *.
  set (U := 2 ^ 52) in *.
  assert (HU : U = 4503599627370496) by reflexivity.
  split; [|lia].
  assert (H99 : 99 * S + 99 * (D + 1) < Tu).
  { assert (Hu' : 100 * U * u <= Tu + 100 * U).
    { destruct unit as [->|Hfull]; nia. }
    assert (9900 * U * S <= 99 * U * Tu + 9900 * U * u) by nia.
    assert (1 <= D) by nia.
    nia. }
  nia.
Qed.

Lemma within_next (k : Z) (c : number) :
  0 <= k <= 98 -> within s E k c ->
  ge (add c s) T = false /\ within s E (k + 1) (add c s).
Proof.
  intros Hk Hw.
  destruct (steps_below_target (k + 1) ltac:(lia)) as (Hlt & HE & HE1).
  pose proof (ulps_pos false ms es (proj1 (valid_exponent _ _ _ s_valid))) as Hs.
  fold s in Hs.
  destruct Hw as [[-> ->]|(Hk0 & m & e & -> & Hv & Hb)].
  - change (add zero s) with s. unfold s, T. rewrite ge_positive by assumption.
    fold s T. split.
    + apply Z.leb_gt. lia.
    + right. split; [lia|]. exists ms, es. repeat split; try assumption. fold s. lia.
  - destruct (add_rounded m ms e es Hv s_valid) as (L' & u' & Hu' & Hb' & Hr).
    fold s in Hb', Hr.
    pose proof (ulps_pos false m e (proj1 (valid_exponent _ _ _ Hv))) as Hc0.
    pose proof (ulps_below_overflow false mt et T_valid) as Hov. fold T in Hov.
    assert (Hsum : ulps (S754_finite false m e) + ulps s <= (k + 1) * ulps s + k * E) by lia.
    assert (Hu'E : u' <= E) by (destruct Hu' as [->|Hu']; nia).
    destruct Hr as [Hr Ho|Hr Hz|m1 e1 Hr Hv1 Hb1].
    + exfalso. nia.
    + exfalso. subst L'. destruct Hu' as [->|Hu']; lia.
    + rewrite Hr in *. unfold T. rewrite ge_positive by assumption. fold T.
      assert (Hb2 : ulps (S754_finite false m1 e1) <= (k + 1) * ulps s + (k + 1) * E) by nia.
      split.
      * apply Z.leb_gt. lia.
      * right. split; [lia|]. exists m1, e1. repeat split; assumption.
Qed.

Lemma ticks_going (j : nat) :
  forall (k : Z) (t : interval),
    0 <= k -> k + Z.of_nat j <= 99 ->
    target t = T -> step t = s -> cleared t = false ->
    within s E k (count t) ->
    cleared (ticks j t) = false.
Proof.
  induction j as [|j IH]; intros k t Hk Hj Ht Hs Hc Hw; cbn [ticks]; [assumption|].
  rewrite Hc.
  destruct (within_next k (count t) ltac:(lia) Hw) as [Hge Hnext].
  apply (IH (k + 1)); try lia.
  - now rewrite callback_target.
  - now rewrite callback_step.
  - now rewrite callback_cleared, Hs, Ht, Hge.
  - now rewrite callback_count, Hs, Ht, Hge.
Qed.
End Lower.

Lemma positive_normal_going (mt : positive) (et : Z) (t : interval) :
  valid (S754_finite false mt et) ->
  2 ^ 52 <= ulps (S754_finite false mt et) ->
  launched (S754_finite false mt et) t ->
  cleared (ticks 99 t) = false.
Proof.
  intros Hv Hn (Ht & Hs & Hc & Hcl).
  destruct (div_hundred_finite false mt et Hv)
    as (L & u & HL & Hu & Hun & Hb & Hsum & [[Hz HL0]|(ms & es & Hd & Hvs & Hbs)]).
  - exfalso. subst L. destruct Hun as [->|Hun]; [|lia].
    assert (2 ^ 52 <= 100); [lia|]. simpl. lia.
  - eapply (ticks_going mt ms et es L u) with (k := 0);
      try eassumption; try lia.
    + now rewrite Hs, Hd.
    + left. now split.
Qed.

(** ** What [parseFloat] makes of a text *)











(** ** The shape of the text [toFixed] returns *)











(** ** The page after one more period *)





Lemma periods_other (i j : nat) : i <> j -> periods j [Timer i] = 0%nat.
Proof. intros H. cbn [periods]. apply Nat.eqb_neq in H. rewrite Nat.eqb_sym in H. now rewrite H. Qed.



Lemma calls_succ (n : nat) (t : interval) :
  cleared (ticks n t) = false -> calls (n + 1) t = S (calls n t).
Proof. intros H. rewrite calls_add. cbn [calls]. rewrite H. lia. Qed.





(** The elements and intervals that exist are those of the counters. *)
Lemma run_counters_length (evs : list event) :
  forall p, List.length (counters (run evs p)) = List.length (counters p).
Proof.
  induction evs as [|ev rest IH]; intros p; cbn [run]; [reflexivity|].
  rewrite IH. destruct ev as [g|j]; cbn [dispatch].
  - destruct (listening p); cbn [fst]; [|reflexivity].
    unfold animateTicker. destruct (started p); [reflexivity|].
    now destruct (lt (top g) (innerHeight g)).
  - apply fire_counters_length.
Qed.

(** *** The call that starts the animation *)

Lemma animateTicker_starts (g : geometry) (p : page) :
  started p = false -> lt (top g) (innerHeight g) = true ->
  started (animateTicker g p) = true /\
  counters (animateTicker g p) = counters p /\
  List.length (intervals (animateTicker g p))
  = (List.length (intervals p) + List.length (counters p))%nat /\
  (forall j, (j < List.length (intervals p))%nat ->
     nth_error (intervals (animateTicker g p)) j = nth_error (intervals p) j) /\
  (forall i e, nth_error (counters p) i = Some e ->
     nth_error (intervals (animateTicker g p)) (List.length (intervals p) + i)
     = Some {| el := i;
               target := parseFloat (data_target e);
               decimals := parseInt (or_zero (data_decimals e));
               step := div (parseFloat (data_target e)) hundred;
               count := zero;
               delay := 20;
               cleared := false |}).
Proof.
  intros Hs Hlt. unfold animateTicker. rewrite Hs, Hlt. cbn [started counters intervals].
  split; [reflexivity|]. split; [reflexivity|].
  split; [now rewrite List.length_app, forEach_length|].
  split.
  - intros j Hj. now apply nth_error_app1.
  - intros i e He.
    rewrite nth_error_app2 by lia.
    replace (List.length (intervals p) + i - List.length (intervals p))%nat with i by lia.
    rewrite forEach_nth, He. reflexivity.
Qed.






(** * The claims *)

(** C1: the flag [started] is declared [false]; a call of [animateTicker]
    made once it is set returns the page unchanged; the call that sets it is
    the one that creates the intervals; and whatever events follow the load
    of the page, scrolls and timer periods alike, the animation set is
    started at most once and no more than one interval per counter ever
    exists. *)
Theorem C1_at_most_once_trigger :
  (forall els p, started (setup els p) = false) /\
  (forall g p, started p = true -> animateTicker g p = p) /\
  (forall g p, started p = false -> started (animateTicker g p) = true ->
     intervals (animateTicker g p) = intervals p ++ forEach 0 (counters p)) /\
  (forall els g evs,
     (starts (setup els blank)
             (fst (DOMContentLoaded (Some els) g blank)
              :: trace evs (fst (DOMContentLoaded (Some els) g blank))) <= 1)%nat /\
     (List.length (intervals (run evs (fst (DOMContentLoaded (Some els) g blank))))
      <= List.length els)%nat).
Proof.
  split; [reflexivity|].
  split; [exact animateTicker_started|].
  split.
  - intros g p Hs Hs'. unfold animateTicker in *. rewrite Hs in *.
    destruct (lt (top g) (innerHeight g)); [reflexivity|congruence].
  - intros els g evs. split.
    + pose proof (starts_trace_bound evs (fst (DOMContentLoaded (Some els) g blank))) as H.
      cbn [starts]. change (started (setup els blank)) with false.
      destruct (started (fst (DOMContentLoaded (Some els) g blank)));
        simpl in *; lia.
    + assert (H : one_launch (List.length els) (fst (DOMContentLoaded (Some els) g blank))).
      { cbn [DOMContentLoaded fst]. unfold animateTicker. cbn [started setup].
        destruct (lt (top g) (innerHeight g)); split; cbn [counters intervals started blank];
          try reflexivity. apply forEach_length. }
      destruct (run_one_launch _ evs _ H) as [_ Hi].
      rewrite Hi. destruct (started _); lia.
Qed.



(** C3, as amended: a counter whose target is at most zero, or at least
    [2^-1022], the least normal number, has cleared its timer once 101
    periods have elapsed, and its callback runs at most 101 times, however
    many periods elapse. *)
Theorem C3_tick_bound (i : nat) (e : element) :
  ge zero (parseFloat (data_target e)) = true \/
  ge (parseFloat (data_target e)) min_normal = true ->
  cleared (ticks 101 (launch i e)) = true /\
  forall n, (calls n (launch i e) <= 101)%nat.
Proof.
  intros H.
  pose proof (parseFloat_valid (data_target e)) as Hv.
  pose proof (launch_launched i e) as Hl.
  set (T := parseFloat (data_target e)) in *.
  assert (Hcases : (ge zero T = true \/ T = infinity) \/
                   exists m x, T = S754_finite false m x /\ 2 ^ 52 <= ulps T).
  { clearbody T. destruct T as [s|s| |s m x].
    - left. left. destruct s; reflexivity.
    - left. destruct s; [now left|now right].
    - destruct H as [H|H]; discriminate.
    - destruct s; [left; now left|].
      destruct H as [H|H]; [discriminate|].
      right. exists m, x. split; [reflexivity|].
      unfold min_normal in H. rewrite ge_positive in H by (assumption || reflexivity).
      apply Z.leb_le in H. exact H. }
  assert (Hc : cleared (ticks 101 (launch i e)) = true).
  { destruct Hcases as [Hneg|(m & x & HT & Hn)].
    - (* the first run clears the timer *)
      pose proof (first_run_clears T (launch i e) Hv Hl Hneg) as Hge.
      destruct (reached_callback _ Hge) as (Hc1 & _).
      change 101%nat with (1 + 100)%nat. rewrite ticks_add.
      now rewrite ticks_cleared.
    - rewrite HT in *. now apply (positive_normal_cleared m x). }
  split; [exact Hc|]. now apply calls_bound.
Qed.

(** The bound is reached: the target 1.1 takes 101 runs. *)
Lemma C3_witness :
  cleared (ticks 101 (launch 0 (counter (Some "1.1"%string) None))) = true /\
  forall n, (calls n (launch 0 (counter (Some "1.1"%string) None)) <= 101)%nat.
Proof.
  apply (C3_tick_bound 0 (counter (Some "1.1"%string) None)).
  right. vm_compute. reflexivity.
Defined.

(** C3 as stated fails: with no [data-target] the target is NaN and the
    callback has run 102 times after 102 periods; with the target
    [5e-324] the step is zero and it has run 1000 times after 1000; with
    the target [2.396e-320] it runs 102 times before the timer is cleared. *)
Lemma C3_counterexample :
  calls 102 (launch 0 (counter None None)) = 102%nat /\
  calls 1000 (launch 0 (counter (Some "5e-324"%string) None)) = 1000%nat /\
  calls 1000 (launch 0 (counter (Some "2.396e-320"%string) None)) = 102%nat.
Proof. vm_compute. repeat split. Qed.




(** C5: a call of [animateTicker] starts the animation set exactly when
    the flag is still [false] and the top of the container is strictly
    less than the height of the viewport.  Starting sets the flag, keeps
    the intervals there were and adds one interval per counter, in order:
    the one of the [i]-th counter writes to that counter, with the target
    and the decimals read from its attributes, the step a hundredth of the
    target, the count zero and the delay 20, not cleared.  In every other
    case, the top at or beyond the height among them, the page is left as
    it is. *)
Theorem C5_trigger_condition (g : geometry) (p : page) :
  (started p = false /\ lt (top g) (innerHeight g) = true ->
   animateTicker g p =
   {| listening := listening p;
      counters := counters p;
      started := true;
      intervals := intervals p ++ forEach 0 (counters p) |} /\
   List.length (intervals (animateTicker g p))
   = (List.length (intervals p) + List.length (counters p))%nat /\
   (forall j, (j < List.length (intervals p))%nat ->
      nth_error (intervals (animateTicker g p)) j = nth_error (intervals p) j) /\
   (forall i e, nth_error (counters p) i = Some e ->
      nth_error (intervals (animateTicker g p)) (List.length (intervals p) + i)
      = Some {| el := i;
                target := parseFloat (data_target e);
                decimals := parseInt (or_zero (data_decimals e));
                step := div (parseFloat (data_target e)) hundred;
                count := zero;
                delay := 20;
                cleared := false |})) /\
  (negb (started p) && started (animateTicker g p) = true <->
   started p = false /\ lt (top g) (innerHeight g) = true) /\
  (ge (top g) (innerHeight g) = true -> animateTicker g p = p) /\
  (started p = true \/ lt (top g) (innerHeight g) = false -> animateTicker g p = p).
Proof.
  split; [|split; [|split]].
  - intros [Hs Hlt].
    destruct (animateTicker_starts g p Hs Hlt) as (_ & _ & Hlen & Hold & Hnew).
    split; [|now repeat split].
    unfold animateTicker. now rewrite Hs, Hlt.
  - unfold animateTicker. split.
    + destruct (started p) eqn:Hs; [discriminate|].
      destruct (lt (top g) (innerHeight g)).
      * now split.
      * rewrite Hs. discriminate.
    + intros [Hs Hlt]. now rewrite Hs, Hlt.
  - intros Hge. unfold animateTicker.
    rewrite (ge_lt_false _ _ Hge). now destruct (started p).
  - intros [Hs|Hlt]; unfold animateTicker.
    + now rewrite Hs.
    + rewrite Hlt. now destruct (started p).
Qed.




(** C7: when the document has no ticker container the handler of
    [DOMContentLoaded] returns normally and leaves the page as it found it:
    on a page with nothing registered no scroll listener and no interval
    exist afterwards, and every later event leaves that page unchanged and
    ends normally. *)
Theorem C7_missing_container (g : geometry) (evs : list event) :
  (forall p, DOMContentLoaded None g p = (p, Return tt)) /\
  listening (fst (DOMContentLoaded None g blank)) = false /\
  intervals (fst (DOMContentLoaded None g blank)) = [] /\
  run evs (fst (DOMContentLoaded None g blank)) = blank /\
  Forall (fun ev => dispatch ev blank = (blank, Return tt)) evs.
Proof.
  split; [reflexivity|]. split; [reflexivity|]. split; [reflexivity|].
  split; [apply run_blank|].
  apply Forall_forall. intros ev _. apply dispatch_blank.
Qed.



(** C9: for a counter whose target is at least zero (hence not NaN), every
    run of the callback formats a value that is at most the target: the
    count after the clamp, which is what [toFixed] is given. *)
Theorem C9_no_overshoot (i : nat) (e : element) (n : nat) :
  ge (parseFloat (data_target e)) zero = true ->
  cleared (ticks n (launch i e)) = false ->
  snd (callback (ticks n (launch i e))) =
    toFixed (count (fst (callback (ticks n (launch i e)))))
            (parseInt (or_zero (data_decimals e))) /\
  ge (parseFloat (data_target e))
     (count (fst (callback (ticks n (launch i e))))) = true.
Proof.
  intros HT Hc.
  pose proof (parseFloat_valid (data_target e)) as Hv.
  pose proof (nonnegative_cases _ Hv HT) as Hcases.
  pose proof (launched_at_most _ _ HT (launch_launched i e)) as H0.
  pose proof (ticks_at_most _ n Hcases _ H0) as Hn.
  destruct (callback_at_most _ _ Hcases Hn Hc) as (_ & _ & Hle & _).
  split; [|exact Hle].
  rewrite callback_written, ticks_decimals. reflexivity.
Qed.

Lemma C9_witness :
  snd (callback (ticks 99 (launch 0 (counter (Some "1.1"%string) (Some "3"%string))))) =
    toFixed (count (fst (callback (ticks 99 (launch 0 (counter (Some "1.1"%string) (Some "3"%string)))))))
            (parseInt (or_zero (Some "3"%string))) /\
  ge (parseFloat (Some "1.1"%string))
     (count (fst (callback (ticks 99 (launch 0 (counter (Some "1.1"%string) (Some "3"%string))))))) = true.
Proof.
  apply (C9_no_overshoot 0 (counter (Some "1.1"%string) (Some "3"%string)) 99).
  - vm_compute. reflexivity.
  - vm_compute. reflexivity.
Defined.




(** * The page of the description, run

    The scenarios the description lists, evaluated on the model: the
    container is in view when the page is loaded, and the timers fire. *)

(** One counter, target 250 with one fraction digit: the text is 250.0
    after the animation, and the interval is cleared. *)
Example scenario_250 :
  let p := run (repeat (Timer 0) 100)
               (fst (DOMContentLoaded
                       (Some [counter (Some "250"%string) (Some "1"%string)])
                       in_view blank)) in
  map textContent (counters p) = ["250.0"%string] /\
  map cleared (intervals p) = [true].
Proof. vm_compute. split; reflexivity. Qed.

(** One counter, target 0: the text is 0 after the first period. *)
Example scenario_zero :
  let p := run [Timer 0]
               (fst (DOMContentLoaded
                       (Some [counter (Some "0"%string) (Some "0"%string)])
                       in_view blank)) in
  map textContent (counters p) = ["0"%string] /\
  map cleared (intervals p) = [true].
Proof. vm_compute. split; reflexivity. Qed.

(** Two counters with different [decimals], their timers firing in turn:
    each settles on its own target. *)
Example scenario_two_counters :
  let p := run (List.concat (repeat [Timer 0; Timer 1] 101))
               (fst (DOMContentLoaded
                       (Some [counter (Some "57.615"%string) (Some "3"%string);
                              counter (Some "18.28"%string) (Some "2"%string)])
                       in_view blank)) in
  map textContent (counters p) = ["57.615"%string; "18.28"%string] /\
  map cleared (intervals p) = [true; true].
Proof. vm_compute. split; reflexivity. Qed.

(** The container below the viewport at load, in view at the second scroll:
    the animation starts then, and a third scroll starts nothing more. *)
Example scenario_scroll :
  let p0 := fst (DOMContentLoaded
                   (Some [counter (Some "13"%string) None]) out_of_view blank) in
  started p0 = false /\
  intervals p0 = [] /\
  started (run [Scroll out_of_view] p0) = false /\
  List.length (intervals (run [Scroll out_of_view; Scroll in_view] p0)) = 1%nat /\
  run [Scroll out_of_view; Scroll in_view; Scroll in_view] p0
  = run [Scroll out_of_view; Scroll in_view] p0.
Proof. vm_compute. repeat split. Qed.

(** A [decimals] attribute outside 0..100: [toFixed] throws in every run,
    the text is never assigned, and the timer is cleared all the same. *)
Example scenario_range_error :
  let p := run (repeat (Timer 0) 100)
               (fst (DOMContentLoaded
                       (Some [counter (Some "250"%string) (Some "101"%string)])
                       in_view blank)) in
  map textContent (counters p) = [EmptyString] /\
  map cleared (intervals p) = [true] /\
  snd (fire 0 (fst (DOMContentLoaded
                      (Some [counter (Some "250"%string) (Some "101"%string)])
                      in_view blank))) = ThrowRangeError.
Proof. vm_compute. repeat split. Qed.

(** * Further properties of the script *)

(** X1: on a page loaded with its container in view, the [i]-th interval
    belongs to the [i]-th counter, and whatever the events of a run, scrolls
    and the periods of the other intervals included, its closure is the one
    its own periods lead to from the closure [forEach] made for that
    counter. *)
Theorem X1_interval_of_counter
  (els : list element) (g : geometry) (evs : list event) (i : nat) (e : element) :
  lt (top g) (innerHeight g) = true ->
  nth_error els i = Some e ->
  nth_error (intervals (run evs (fst (DOMContentLoaded (Some els) g blank)))) i
  = Some (ticks (periods i evs) (launch i e)).
Proof.
  intros Hg He. rewrite (loaded_in_view els g Hg).
  apply run_interval. cbn [intervals].
  rewrite forEach_nth, He. reflexivity.
Qed.

Lemma X1_witness :
  nth_error
    (intervals
       (run [Timer 1; Scroll in_view; Timer 0; Timer 1; Timer 7]
            (fst (DOMContentLoaded
                    (Some [counter (Some "57.615"%string) (Some "3"%string);
                           counter (Some "18.28"%string) (Some "2"%string)])
                    in_view blank)))) 1
  = Some (ticks (periods 1 [Timer 1; Scroll in_view; Timer 0; Timer 1; Timer 7])
                (launch 1 (counter (Some "18.28"%string) (Some "2"%string)))).
Proof.
  apply (X1_interval_of_counter
           [counter (Some "57.615"%string) (Some "3"%string);
            counter (Some "18.28"%string) (Some "2"%string)]
           in_view [Timer 1; Scroll in_view; Timer 0; Timer 1; Timer 7] 1
           (counter (Some "18.28"%string) (Some "2"%string))).
  - vm_compute. reflexivity.
  - reflexivity.
Defined.

(** X2: on a page loaded with its container in view, after any run of
    events a counter element keeps its attributes, and its text is the last
    one the runs of its own interval assigned, or its first text when none
    assigned any: no other interval and no scroll changes it. *)
Theorem X2_text_of_counter
  (els : list element) (g : geometry) (evs : list event) (i : nat) (e : element) :
  lt (top g) (innerHeight g) = true ->
  nth_error els i = Some e ->
  nth_error (counters (run evs (fst (DOMContentLoaded (Some els) g blank)))) i
  = Some (set_text (shown (textContent e) (writes (periods i evs) (launch i e))) e).
Proof.
  intros Hg He. rewrite (loaded_in_view els g Hg).
  apply run_text.
  - reflexivity.
  - intros j t Hj. cbn [intervals] in Hj. now apply (forEach_own els).
  - cbn [intervals]. rewrite forEach_nth, He. reflexivity.
  - exact He.
Qed.

Lemma X2_witness :
  nth_error
    (counters
       (run [Timer 1; Scroll in_view; Timer 0; Timer 1]
            (fst (DOMContentLoaded
                    (Some [counter (Some "57.615"%string) (Some "3"%string);
                           counter (Some "18.28"%string) (Some "2"%string)])
                    in_view blank)))) 1
  = Some (set_text
            (shown (textContent (counter (Some "18.28"%string) (Some "2"%string)))
                   (writes (periods 1 [Timer 1; Scroll in_view; Timer 0; Timer 1])
                           (launch 1 (counter (Some "18.28"%string) (Some "2"%string)))))
            (counter (Some "18.28"%string) (Some "2"%string))).
Proof.
  apply (X2_text_of_counter
           [counter (Some "57.615"%string) (Some "3"%string);
            counter (Some "18.28"%string) (Some "2"%string)]
           in_view [Timer 1; Scroll in_view; Timer 0; Timer 1] 1
           (counter (Some "18.28"%string) (Some "2"%string))).
  - vm_compute. reflexivity.
  - reflexivity.
Defined.

(** X3: on a page loaded with its container in view, a counter whose
    target is at most zero or at least [2^-1022], and whose [decimals]
    [toFixed] accepts, shows the formatted target for good once 101 periods
    of its interval have elapsed, however the events of the run are
    interleaved; its interval is cleared. *)
Theorem X3_settled_text
  (els : list element) (g : geometry) (evs : list event) (i : nat) (e : element)
  (s : string) :
  lt (top g) (innerHeight g) = true ->
  nth_error els i = Some e ->
  ge zero (parseFloat (data_target e)) = true \/
  ge (parseFloat (data_target e)) min_normal = true ->
  toFixed (parseFloat (data_target e)) (parseInt (or_zero (data_decimals e))) = Return s ->
  (101 <= periods i evs)%nat ->
  nth_error (counters (run evs (fst (DOMContentLoaded (Some els) g blank)))) i
  = Some (set_text s e) /\
  option_map cleared
    (nth_error (intervals (run evs (fst (DOMContentLoaded (Some els) g blank)))) i)
  = Some true.
Proof.
  intros Hg He HT Hs Hn.
  pose proof (launched_cleared_101 _ (launch i e)
                (parseFloat_valid (data_target e)) (launch_launched i e) HT) as Hc.
  assert (Hc' : cleared (ticks (periods i evs) (launch i e)) = true).
  { replace (periods i evs) with (101 + (periods i evs - 101))%nat by lia.
    rewrite ticks_add. now rewrite ticks_cleared. }
  split.
  - rewrite (loaded_in_view els g Hg).
    rewrite (run_text evs _ i (launch i e) e); try reflexivity.
    + destruct (cleared_last_write _ (launch i e) eq_refl Hc') as [_ [earlier Hw]].
      rewrite Hw, shown_app. cbn [target decimals launch].
      rewrite Hs. reflexivity.
    + intros j t Hj. cbn [intervals] in Hj. now apply (forEach_own els).
    + cbn [intervals]. rewrite forEach_nth, He. reflexivity.
    + exact He.
  - rewrite (loaded_in_view els g Hg).
    rewrite (run_interval evs _ i (launch i e)).
    + cbn [option_map]. now rewrite Hc'.
    + cbn [intervals]. rewrite forEach_nth, He. reflexivity.
Qed.

Lemma X3_witness :
  nth_error
    (counters
       (run (List.concat (repeat [Timer 0; Scroll in_view; Timer 1] 101))
            (fst (DOMContentLoaded
                    (Some [counter (Some "57.615"%string) (Some "3"%string);
                           counter (Some "18.28"%string) (Some "2"%string)])
                    in_view blank)))) 0
  = Some (set_text "57.615"%string (counter (Some "57.615"%string) (Some "3"%string))) /\
  option_map cleared
    (nth_error
       (intervals
          (run (List.concat (repeat [Timer 0; Scroll in_view; Timer 1] 101))
               (fst (DOMContentLoaded
                       (Some [counter (Some "57.615"%string) (Some "3"%string);
                              counter (Some "18.28"%string) (Some "2"%string)])
                       in_view blank)))) 0)
  = Some true.
Proof.
  apply (X3_settled_text
           [counter (Some "57.615"%string) (Some "3"%string);
            counter (Some "18.28"%string) (Some "2"%string)]
           in_view (List.concat (repeat [Timer 0; Scroll in_view; Timer 1] 101)) 0
           (counter (Some "57.615"%string) (Some "3"%string)) "57.615"%string).
  - vm_compute. reflexivity.
  - reflexivity.
  - right. vm_compute. reflexivity.
  - vm_compute. reflexivity.
  - vm_compute. lia.
Defined.

(** X4: when the container is not in view at the load, the page stays as
    the handler's declarations left it, with the listener registered, the
    flag unset, no interval and every text untouched, for as long as no
    scroll brings the top of the container above the bottom of the
    viewport; the periods of timers change nothing, since none exists. *)
Theorem X4_dormant_until_in_view
  (els : list element) (g : geometry) (evs : list event) :
  lt (top g) (innerHeight g) = false ->
  Forall quiet evs ->
  run evs (fst (DOMContentLoaded (Some els) g blank)) =
  {| listening := true; counters := els; started := false; intervals := [] |}.
Proof.
  intros Hg Hq.
  assert (H0 : fst (DOMContentLoaded (Some els) g blank) =
               {| listening := true; counters := els; started := false; intervals := [] |}).
  { cbn [DOMContentLoaded fst]. unfold animateTicker. cbn [started setup].
    now rewrite Hg. }
  rewrite H0. now apply quiet_run.
Qed.

Lemma X4_witness :
  run [Scroll out_of_view; Timer 0; Scroll out_of_view]
      (fst (DOMContentLoaded (Some [counter (Some "13"%string) None]) out_of_view blank)) =
  {| listening := true; counters := [counter (Some "13"%string) None];
     started := false; intervals := [] |}.
Proof.
  apply (X4_dormant_until_in_view [counter (Some "13"%string) None] out_of_view
           [Scroll out_of_view; Timer 0; Scroll out_of_view]).
  - vm_compute. reflexivity.
  - repeat constructor.
Defined.

(** X5: a counter whose target is a finite number of at least [2^-1022]
    always takes 100 or 101 runs of its callback: its timer still goes after
    99 periods and is cleared after 101. *)
Theorem X5_hundred_runs (i : nat) (e : element) :
  ge (parseFloat (data_target e)) min_normal = true ->
  lt (parseFloat (data_target e)) infinity = true ->
  cleared (ticks 99 (launch i e)) = false /\
  cleared (ticks 101 (launch i e)) = true /\
  forall n, (101 <= n)%nat ->
    calls n (launch i e) = 100%nat \/ calls n (launch i e) = 101%nat.
Proof.
  intros Hge Hlt.
  pose proof (parseFloat_valid (data_target e)) as Hv.
  pose proof (launch_launched i e) as Hl.
  pose proof (launched_cleared_101 _ _ Hv Hl (or_intror Hge)) as H101.
  assert (H99 : cleared (ticks 99 (launch i e)) = false).
  { destruct (parseFloat (data_target e)) as [s|[|]| |[|] m x] eqn:HT; try discriminate.
    apply (positive_normal_going m x); try assumption.
    unfold min_normal in Hge. rewrite ge_positive in Hge by (assumption || reflexivity).
    apply Z.leb_le in Hge. exact Hge. }
  split; [exact H99|]. split; [exact H101|].
  intros n Hn.
  pose proof (calls_bound 101 _ H101 n) as Hup.
  replace n with (99 + (n - 99))%nat in * by lia.
  rewrite calls_add, (not_cleared_calls 99 _ H99) in *.
  destruct (n - 99)%nat as [|k] eqn:Hk; [lia|].
  cbn [calls] in *. rewrite H99 in *. lia.
Qed.

Lemma X5_witness :
  cleared (ticks 99 (launch 0 (counter (Some "18.28"%string) (Some "2"%string)))) = false /\
  cleared (ticks 101 (launch 0 (counter (Some "18.28"%string) (Some "2"%string)))) = true /\
  forall n, (101 <= n)%nat ->
    calls n (launch 0 (counter (Some "18.28"%string) (Some "2"%string))) = 100%nat \/
    calls n (launch 0 (counter (Some "18.28"%string) (Some "2"%string))) = 101%nat.
Proof.
  apply (X5_hundred_runs 0 (counter (Some "18.28"%string) (Some "2"%string))).
  - vm_compute. reflexivity.
  - vm_compute. reflexivity.
Defined.

(** X6: the count of a counter whose target is at least zero never goes
    down from one period to the next. *)
Theorem X6_count_never_decreases (i : nat) (e : element) (n : nat) :
  ge (parseFloat (data_target e)) zero = true ->
  ge (count (ticks (S n) (launch i e))) (count (ticks n (launch i e))) = true.
Proof.
  intros HT.
  pose proof (parseFloat_valid (data_target e)) as Hv.
  pose proof (nonnegative_cases _ Hv HT) as Hcases.
  pose proof (launched_at_most _ _ HT (launch_launched i e)) as H0.
  pose proof (ticks_at_most _ n Hcases _ H0) as (Ht & Hs & Hle & Hgood).
  replace (S n) with (n + 1)%nat by lia. rewrite ticks_add.
  set (t := ticks n (launch i e)) in *.
  assert (Hnn : is_nan (count t) = false).
  { destruct (count t); try reflexivity.
    unfold ge in Hle. destruct (parseFloat (data_target e)); discriminate. }
  cbn [ticks]. destruct (cleared t) eqn:Hc; [now apply ge_refl|].
  destruct Hgood as [Hg|Hg]; [congruence|].
  rewrite callback_count, Ht, Hs.
  destruct (ge (add (count t) (div (parseFloat (data_target e)) hundred))
               (parseFloat (data_target e))).
  - exact Hle.
  - apply add_ge_left; [assumption|]. now apply div_hundred_good.
Qed.

Lemma X6_witness :
  ge (count (ticks (S 57) (launch 0 (counter (Some "1.1"%string) None))))
     (count (ticks 57 (launch 0 (counter (Some "1.1"%string) None)))) = true.
Proof.
  apply (X6_count_never_decreases 0 (counter (Some "1.1"%string) None) 57).
  vm_compute. reflexivity.
Defined.

(** X7: how a counter counts depends on its [data-target] alone: two
    elements with the same [data-target], whatever their [data-decimals],
    texts and places in the container, have the same count and the same
    timer state after any number of periods, and as many callback runs. *)
Theorem X7_timing_from_target (i j : nat) (e e' : element) (n : nat) :
  data_target e = data_target e' ->
  count (ticks n (launch i e)) = count (ticks n (launch j e')) /\
  cleared (ticks n (launch i e)) = cleared (ticks n (launch j e')) /\
  calls n (launch i e) = calls n (launch j e').
Proof.
  intros H.
  assert (H0 : same_timing (launch i e) (launch j e')).
  { unfold same_timing. cbn [target step count cleared launch]. rewrite H. repeat split. }
  destruct (ticks_same_timing n _ _ H0) as [(_ & _ & Hc & Hcl) Hcalls].
  repeat split; assumption.
Qed.

Lemma X7_witness :
  count (ticks 40 (launch 0 (counter (Some "57.615"%string) (Some "3"%string))))
  = count (ticks 40 (launch 5 (counter (Some "57.615"%string) (Some "101"%string)))) /\
  cleared (ticks 40 (launch 0 (counter (Some "57.615"%string) (Some "3"%string))))
  = cleared (ticks 40 (launch 5 (counter (Some "57.615"%string) (Some "101"%string)))) /\
  calls 40 (launch 0 (counter (Some "57.615"%string) (Some "3"%string)))
  = calls 40 (launch 5 (counter (Some "57.615"%string) (Some "101"%string))).
Proof.
  apply (X7_timing_from_target 0 5
           (counter (Some "57.615"%string) (Some "3"%string))
           (counter (Some "57.615"%string) (Some "101"%string)) 40).
  reflexivity.
Defined.

(** X8: when [data-decimals] gives a number of digits [toFixed] does not
    accept, below 0 or above 100, every run of the callback ends in a
    [RangeError] before the assignment: on a page loaded with its container
    in view the element is never changed, whatever the events. *)
Theorem X8_decimals_out_of_range
  (els : list element) (g : geometry) (evs : list event) (i : nat) (e : element) :
  accepted (parseInt (or_zero (data_decimals e))) = false ->
  lt (top g) (innerHeight g) = true ->
  nth_error els i = Some e ->
  (forall n, writes n (launch i e) = repeat ThrowRangeError (calls n (launch i e))) /\
  nth_error (counters (run evs (fst (DOMContentLoaded (Some els) g blank)))) i = Some e.
Proof.
  intros Hd Hg He.
  assert (Hw : forall n, writes n (launch i e) = repeat ThrowRangeError (calls n (launch i e))).
  { intros n. now apply writes_refused. }
  split; [exact Hw|].
  rewrite (loaded_in_view els g Hg).
  rewrite (run_text evs _ i (launch i e) e); try reflexivity.
  - now rewrite Hw, shown_throws, set_text_same.
  - intros j t Hj. cbn [intervals] in Hj. now apply (forEach_own els).
  - cbn [intervals]. rewrite forEach_nth, He. reflexivity.
  - exact He.
Qed.

Lemma X8_witness :
  (forall n,
     writes n (launch 0 (counter (Some "250"%string) (Some "-1"%string)))
     = repeat ThrowRangeError (calls n (launch 0 (counter (Some "250"%string) (Some "-1"%string))))) /\
  nth_error
    (counters
       (run (repeat (Timer 0) 30)
            (fst (DOMContentLoaded (Some [counter (Some "250"%string) (Some "-1"%string)])
                                   in_view blank)))) 0
  = Some (counter (Some "250"%string) (Some "-1"%string)).
Proof.
  apply (X8_decimals_out_of_range
           [counter (Some "250"%string) (Some "-1"%string)] in_view
           (repeat (Timer 0) 30) 0 (counter (Some "250"%string) (Some "-1"%string))).
  - vm_compute. reflexivity.
  - vm_compute. reflexivity.
  - reflexivity.
Defined.

(** X9: a [data-decimals] attribute that is absent, empty, or does not
    start with an integer counts as 0 fraction digits: [toFixed] formats
    every value as it does with 0 digits, and no run of the callback
    throws. *)
Theorem X9_decimals_default (i : nat) (e : element) :
  data_decimals e = None \/ data_decimals e = Some EmptyString \/
  is_nan (parseInt (or_zero (data_decimals e))) = true ->
  (forall x, toFixed x (decimals (launch i e)) = toFixed x zero) /\
  forall n, Forall (fun w => exists s, w = Return s) (writes n (launch i e)).
Proof.
  intros H.
  assert (Hd : ToIntegerOrInfinity (decimals (launch i e)) = Finite 0).
  { cbn [decimals launch]. destruct H as [H|[H|H]].
    - rewrite H. reflexivity.
    - rewrite H. reflexivity.
    - destruct (parseInt (or_zero (data_decimals e))); try discriminate. reflexivity. }
  split.
  - intros x. unfold toFixed. rewrite Hd. reflexivity.
  - intros n. apply writes_accepted. unfold accepted. now rewrite Hd.
Qed.

Lemma X9_witness :
  (forall x,
     toFixed x (decimals (launch 0 (counter (Some "18.28"%string) (Some "two"%string))))
     = toFixed x zero) /\
  forall n,
    Forall (fun w => exists s, w = Return s)
           (writes n (launch 0 (counter (Some "18.28"%string) (Some "two"%string)))).
Proof.
  apply (X9_decimals_default 0 (counter (Some "18.28"%string) (Some "two"%string))).
  right. right. vm_compute. reflexivity.
Defined.

(** X10: the check has no lower bound: a container whose top is above the
    top of the viewport, scrolled past or not, starts the animation as soon
    as the check runs with the flag unset, for any viewport height that is
    not negative: the flag is set, the counters and the intervals there
    were are kept, and every counter gets its interval, from the count zero
    with the step a hundredth of its target. *)
Theorem X10_triggers_above_viewport (g : geometry) (p : page) :
  started p = false ->
  lt (top g) zero = true ->
  ge (innerHeight g) zero = true ->
  started (animateTicker g p) = true /\
  counters (animateTicker g p) = counters p /\
  List.length (intervals (animateTicker g p))
  = (List.length (intervals p) + List.length (counters p))%nat /\
  (forall j, (j < List.length (intervals p))%nat ->
     nth_error (intervals (animateTicker g p)) j = nth_error (intervals p) j) /\
  (forall i e, nth_error (counters p) i = Some e ->
     nth_error (intervals (animateTicker g p)) (List.length (intervals p) + i)
     = Some {| el := i;
               target := parseFloat (data_target e);
               decimals := parseInt (or_zero (data_decimals e));
               step := div (parseFloat (data_target e)) hundred;
               count := zero;
               delay := 20;
               cleared := false |}).
Proof.
  intros Hs Htop Hh.
  assert (Hlt : lt (top g) (innerHeight g) = true).
  { destruct (top g) as [s|[|]| |[|] m x]; try discriminate;
      destruct (innerHeight g) as [s'|[|]| |[|] m' x']; try discriminate; reflexivity. }
  exact (animateTicker_starts g p Hs Hlt).
Qed.

Lemma X10_witness :
  started (animateTicker scrolled_past (setup [counter (Some "13"%string) None] blank))
  = true /\
  counters (animateTicker scrolled_past (setup [counter (Some "13"%string) None] blank))
  = counters (setup [counter (Some "13"%string) None] blank) /\
  List.length
    (intervals (animateTicker scrolled_past (setup [counter (Some "13"%string) None] blank)))
  = (List.length (intervals (setup [counter (Some "13"%string) None] blank))
     + List.length (counters (setup [counter (Some "13"%string) None] blank)))%nat /\
  (forall j,
     (j < List.length (intervals (setup [counter (Some "13"%string) None] blank)))%nat ->
     nth_error
       (intervals (animateTicker scrolled_past (setup [counter (Some "13"%string) None] blank)))
       j
     = nth_error (intervals (setup [counter (Some "13"%string) None] blank)) j) /\
  (forall i e,
     nth_error (counters (setup [counter (Some "13"%string) None] blank)) i = Some e ->
     nth_error
       (intervals (animateTicker scrolled_past (setup [counter (Some "13"%string) None] blank)))
       (List.length (intervals (setup [counter (Some "13"%string) None] blank)) + i)
     = Some {| el := i;
               target := parseFloat (data_target e);
               decimals := parseInt (or_zero (data_decimals e));
               step := div (parseFloat (data_target e)) hundred;
               count := zero;
               delay := 20;
               cleared := false |}).
Proof.
  unfold scrolled_past.
  apply (X10_triggers_above_viewport
           {| top := of_Z (-5000); innerHeight := of_Z 768 |}
           (setup [counter (Some "13"%string) None] blank)).
  - reflexivity.
  - vm_compute. reflexivity.
  - vm_compute. reflexivity.
Defined.
